(** * SAT_Solvers_MPI: the three decision procedures, embedded and verified

    The repository ships three propositional satisfiability engines over CNF
    formulas of signed integer literals:

    - [dp.py]          Davis-Putnam variable elimination ([dp_eliminate]);
    - [dpll.py]        DPLL backtracking search ([dpll_rec]);
    - [resolution.py]  saturation by pairwise resolution ([resolution]).

    Python integers are modelled as [Z], Python lists as [list], Python sets
    of integers as [gset Z], the insertion-ordered [dict] of the pure-literal
    scans as an association list.  Recursion and the [while True] loop take a
    [fuel] argument; [None] means that no verdict was produced with that much
    fuel. *)

From stdpp Require Import base gmap sets list fin_sets strings.
From Stdlib Require Import ZArith Lia Ascii.

Local Open Scope Z_scope.

(** A clause as the list-based engines receive it, and a formula. *)
Abbreviation clause := (list Z).
Abbreviation cnf := (list (list Z)).

(** The set of booleans stored per variable by the pure-literal scans. *)
Definition sign_add (b : bool) (signs : list bool) : list bool :=
  if bool_decide (b ∈ signs) then signs else signs ++ [b].

(** [pol.setdefault(v, set()).add(b)] on an insertion-ordered dict. *)
Fixpoint pol_add (v : Z) (b : bool) (pol : list (Z * list bool))
  : list (Z * list bool) :=
  match pol with
  | [] => [(v, sign_add b [])]
  | (w, signs) :: rest =>
      if Z.eqb w v then (w, sign_add b signs) :: rest
      else (w, signs) :: pol_add v b rest
  end.

(** The final scan of both pure-literal functions:
    the first variable whose sign set has exactly one element. *)
Fixpoint first_single (pol : list (Z * list bool)) : option Z :=
  match pol with
  | [] => None
  | (v, signs) :: rest =>
      if Nat.eqb (length signs) 1
      then Some (if bool_decide (true ∈ signs) then v else - v)
      else first_single rest
  end.

(** ** dp.py *)
Module DP.

(** [find_unit_clause]: the literal of the first clause of length one. *)
Fixpoint find_unit_clause (clauses : cnf) : option Z :=
  match clauses with
  | [] => None
  | c :: cs =>
      match c with
      | [u] => Some u
      | _ => find_unit_clause cs
      end
  end.

(** [unit_propagate], with its accumulator [new] and its early
    [return [[]]]. *)
Fixpoint unit_propagate_loop (clauses : cnf) (unit : Z) (new : cnf) : cnf :=
  match clauses with
  | [] => new
  | c :: cs =>
      if decide (unit ∈ c) then unit_propagate_loop cs unit new
      else if decide (- unit ∈ c) then
        let r := filter (λ lit, lit ≠ - unit) c in
        match r with
        | [] => [[]]
        | _ => unit_propagate_loop cs unit (new ++ [r])
        end
      else unit_propagate_loop cs unit (new ++ [c])
  end.

Definition unit_propagate (clauses : cnf) (unit : Z) : cnf :=
  unit_propagate_loop clauses unit [].

(** The first loop of [find_pure_literal]: the polarity table. *)
Definition pol_clause (pol : list (Z * list bool)) (c : clause) :=
  fold_left (λ pol lit, pol_add (Z.abs lit) (Z.ltb 0 lit) pol) c pol.

Definition pol_table (clauses : cnf) : list (Z * list bool) :=
  fold_left pol_clause clauses [].

Definition find_pure_literal (clauses : cnf) : option Z :=
  first_single (pol_table clauses).

(** [list(dict.fromkeys(R))]: duplicates dropped, first occurrences kept. *)
Definition fromkeys (R : clause) : clause :=
  fold_left (λ acc l, if decide (l ∈ acc) then acc else acc ++ [l]) R [].

(** [any(-l in R for l in R)]. *)
Definition tautology (R : clause) : bool :=
  existsb (λ l, bool_decide (- l ∈ R)) R.

(** The double loop that builds [resolvents]. *)
Definition resolvents_of (var : Z) (pos neg : cnf) : cnf :=
  flat_map (λ C,
    flat_map (λ D,
      let R := fromkeys (filter (λ l, l ≠ var) C ++ filter (λ l, l ≠ - var) D) in
      if tautology R then [] else [R]) neg) pos.

(** The formula on which the elimination step recurses. *)
Definition eliminate (var : Z) (clauses : cnf) : cnf :=
  let pos := filter (λ c, var ∈ c) clauses in
  let neg := filter (λ c, - var ∈ c) clauses in
  let rest := filter (λ c, (var ∉ c) ∧ (- var ∉ c)) clauses in
  rest ++ resolvents_of var pos neg.

(** [clauses[0][0]]; [None] stands for the [IndexError]. *)
Definition first_literal (clauses : cnf) : option Z :=
  match clauses with
  | (lit0 :: _) :: _ => Some lit0
  | _ => None
  end.

(** [dp_eliminate].  [Some b] is the returned verdict; [None] is produced
    when the fuel runs out or [clauses[0][0]] raises. *)
Fixpoint dp_eliminate (fuel : nat) (clauses : cnf) : option bool :=
  match fuel with
  | O => None
  | S fuel =>
      if existsb (λ c, Nat.eqb (length c) 0) clauses then Some false
      else if Nat.eqb (length clauses) 0 then Some true
      else
        match find_pure_literal clauses with
        | Some p => dp_eliminate fuel (filter (λ c, p ∉ c) clauses)
        | None =>
            match find_unit_clause clauses with
            | Some u => dp_eliminate fuel (unit_propagate clauses u)
            | None =>
                match first_literal clauses with
                | Some lit0 => dp_eliminate fuel (eliminate (Z.abs lit0) clauses)
                | None => None
                end
            end
        end
  end.

End DP.

(** ** dpll.py *)
Module DPLL.

(** [all(any(lit in model for lit in clause) for clause in clauses)]. *)
Definition all_true (clauses : cnf) (model : gset Z) : bool :=
  forallb (λ clause, existsb (λ lit, bool_decide (lit ∈ model)) clause) clauses.

(** [any(all(-lit in model for lit in clause) for clause in clauses)]. *)
Definition some_false (clauses : cnf) (model : gset Z) : bool :=
  existsb (λ clause, forallb (λ lit, bool_decide (- lit ∈ model)) clause) clauses.

(** [unit_clause]: the single survivor of the first clause that has exactly
    one literal whose negation is not in the model, provided it is unassigned. *)
Fixpoint unit_clause (clauses : cnf) (model : gset Z) : option Z :=
  match clauses with
  | [] => None
  | clause :: cs =>
      match filter (λ lit, - lit ∉ model) clause with
      | [lit] =>
          if decide ((lit ∉ model) ∧ (- lit ∉ model)) then Some lit
          else unit_clause cs model
      | _ => unit_clause cs model
      end
  end.

(** The first loop of [pure_literal]: assigned literals are skipped. *)
Definition counts_clause (model : gset Z) (counts : list (Z * list bool))
    (c : clause) :=
  fold_left (λ counts lit,
      if decide (lit ∈ model ∨ - lit ∈ model) then counts
      else pol_add (Z.abs lit) (Z.ltb 0 lit) counts) c counts.

Definition counts_table (clauses : cnf) (model : gset Z) : list (Z * list bool) :=
  fold_left (counts_clause model) clauses [].

Definition pure_literal (clauses : cnf) (model : gset Z) : option Z :=
  first_single (counts_table clauses model).

(** [simplify(clauses, var, value)]. *)
Fixpoint simplify (clauses : cnf) (var : Z) (value : bool) : cnf :=
  match clauses with
  | [] => []
  | clause :: cs =>
      if decide ((if value then var else - var) ∈ clause) then simplify cs var value
      else filter (λ lit, lit ≠ (if value then - var else var)) clause
             :: simplify cs var value
  end.

(** The scan of the branch rule: the first literal, clause by clause, that
    is neither in the model nor has its negation there. *)
Fixpoint first_unassigned (clauses : cnf) (model : gset Z) : option Z :=
  match clauses with
  | [] => None
  | clause :: cs =>
      match filter (λ lit, (lit ∉ model) ∧ (- lit ∉ model)) clause with
      | lit :: _ => Some lit
      | [] => first_unassigned cs model
      end
  end.

(** [dpll_rec].  The outer [option] is the fuel ([None]: no answer yet); the
    inner one is Python's result, a model or [None]. *)
Fixpoint dpll_rec (fuel : nat) (clauses : cnf) (model : gset Z)
  : option (option (gset Z)) :=
  match fuel with
  | O => None
  | S fuel =>
      if all_true clauses model then Some (Some model)
      else if some_false clauses model then Some None
      else
        match unit_clause clauses model with
        | Some unit =>
            dpll_rec fuel (simplify clauses (Z.abs unit) (Z.ltb 0 unit))
                     (model ∪ {[unit]})
        | None =>
            match pure_literal clauses model with
            | Some pure =>
                dpll_rec fuel (simplify clauses (Z.abs pure) (Z.ltb 0 pure))
                         (model ∪ {[pure]})
            | None =>
                match first_unassigned clauses model with
                | Some lit =>
                    let var := Z.abs lit in
                    match dpll_rec fuel (simplify clauses var true)
                                   (model ∪ {[var]}) with
                    | None => None
                    | Some (Some res) => Some (Some res)
                    | Some None =>
                        dpll_rec fuel (simplify clauses var false)
                                 (model ∪ {[- var]})
                    end
                | None => Some None
                end
            end
        end
  end.

End DPLL.

(** ** resolution.py *)
Module Resolution.

(** A clause of the saturation engine is a [frozenset] of integers, the
    working set a [set] of them. *)
Abbreviation fclause := (gset Z).
Abbreviation clause_set := (gset (gset Z)).

Section Engine.
  (** The order in which Python iterates a set is not specified.  The engine
      is therefore parameterised by the iteration order of a clause
      ([for lit in c1]) and of the working set ([list(clauses)]). *)
Variable lit_order : fclause → list Z.
Variable clause_order : clause_set → list fclause.

  (** [resolve_pair], scanning the literals of [c1] in the order [lits]. *)
Fixpoint resolve_scan (lits : list Z) (c1 c2 : fclause) : option fclause :=
    match lits with
    | [] => None
    | lit :: rest =>
        if decide (- lit ∈ c2) then Some ((c1 ∪ c2) ∖ {[lit; - lit]})
        else resolve_scan rest c1 c2
    end.

Definition resolve_pair (c1 c2 : fclause) : option fclause :=
    resolve_scan (lit_order c1) c1 c2.

  (** The loop over [j] for a fixed [i]: [None] is the [return False] taken
      when a resolvent is empty, [Some new] the accumulated set. *)
Fixpoint inner_loop (ci : fclause) (later : list fclause) (new : clause_set)
    : option clause_set :=
    match later with
    | [] => Some new
    | cj :: later =>
        match resolve_pair ci cj with
        | Some r =>
            if decide (r = ∅) then None
            else inner_loop ci later (new ∪ {[r]})
        | None => inner_loop ci later new
        end
    end.

  (** The loop over [i]. *)
Fixpoint outer_loop (pairs : list fclause) (new : clause_set)
    : option clause_set :=
    match pairs with
    | [] => Some new
    | ci :: later =>
        match inner_loop ci later new with
        | Some new => outer_loop later new
        | None => None
        end
    end.

  (** One pass of the body of [while True]. *)
Definition round (clauses : clause_set) : option clause_set :=
    outer_loop (clause_order clauses) ∅.

  (** The [while True] loop; [new] is empty at the start of every pass. *)
Fixpoint saturate (fuel : nat) (clauses : clause_set) : option bool :=
    match fuel with
    | O => None
    | S fuel =>
        match round clauses with
        | None => Some false
        | Some new =>
            if decide (new ⊆ clauses) then Some true
            else saturate fuel (clauses ∪ new)
        end
    end.

  (** [set(frozenset(c) for c in clauses)]. *)
Definition initial (clauses : cnf) : clause_set :=
    list_to_set (map (λ c : clause, (list_to_set c : fclause)) clauses).

Definition resolution (fuel : nat) (clauses : cnf) : option bool :=
    saturate fuel (initial clauses).
End Engine.

End Resolution.

(** * List helpers *)

Lemma elem_of_concat {A} (x : A) (ls : list (list A)) :
  x ∈ concat ls ↔ ∃ c, c ∈ ls ∧ x ∈ c.
Proof.
  rewrite list_elem_of_In, in_concat. split.
  - intros (c & ? & ?). exists c. by rewrite !list_elem_of_In.
  - intros (c & ? & ?). exists c. by rewrite <- !list_elem_of_In.
Qed.

Lemma filter_id {A} (P : A → Prop) `{∀ x, Decision (P x)} (l : list A) :
  (∀ x, x ∈ l → P x) → filter P l = l.
Proof.
  induction l as [|x l IH]; intros Hall; [done|].
  rewrite filter_cons_True by (apply Hall; left).
  f_equal. apply IH. intros y Hy. apply Hall. by right.
Qed.

(** * The polarity tables of the pure-literal scans *)
Section PolarityTable.

  (** The table built from a flat sequence of literals. *)
Definition pol_of (lits : list Z) : list (Z * list bool) :=
    fold_left (λ pol lit, pol_add (Z.abs lit) (Z.ltb 0 lit) pol) lits [].

  (** What a table records about the literals scanned so far. *)
Definition pol_inv (lits : list Z) (pol : list (Z * list bool)) : Prop :=
    NoDup pol.*1 ∧
    (∀ w signs b, (w, signs) ∈ pol →
       b ∈ signs ↔ ∃ l, l ∈ lits ∧ Z.abs l = w ∧ Z.ltb 0 l = b) ∧
    (∀ l, l ∈ lits → Z.abs l ∈ pol.*1).

Lemma sign_add_elem b b' signs : b' ∈ sign_add b signs ↔ b' ∈ signs ∨ b' = b.
  Proof.
    unfold sign_add. case_bool_decide as Hb.
    - split; [auto|]. intros [?| ->]; done.
    - rewrite elem_of_app, list_elem_of_singleton. done.
  Qed.

Lemma pol_add_keys v b pol w :
    w ∈ (pol_add v b pol).*1 ↔ w ∈ pol.*1 ∨ w = v.
  Proof.
    induction pol as [|[k s] pol IH]; simpl.
    - rewrite list_elem_of_singleton. split; [auto|]. intros [H| ->]; [inversion H|done].
    - destruct (Z.eqb_spec k v) as [->|Hne]; simpl.
      + rewrite !elem_of_cons. tauto.
      + rewrite !elem_of_cons, IH. tauto.
  Qed.

Lemma pol_add_NoDup v b pol : NoDup pol.*1 → NoDup (pol_add v b pol).*1.
  Proof.
    induction pol as [|[k s] pol IH]; simpl; intros Hnd.
    - repeat constructor. inversion 1.
    - apply NoDup_cons in Hnd as [Hk Hnd].
      destruct (Z.eqb_spec k v) as [->|Hne]; simpl.
      + by apply NoDup_cons.
      + apply NoDup_cons. split; [|auto].
        rewrite pol_add_keys. intros [?| ->]; done.
  Qed.

Lemma pol_add_entry v b pol w signs :
    NoDup pol.*1 →
    (w, signs) ∈ pol_add v b pol →
    (w ≠ v ∧ (w, signs) ∈ pol) ∨
    (w = v ∧ ((∃ old, (v, old) ∈ pol ∧ signs = sign_add b old) ∨
              ((v ∉ pol.*1) ∧ signs = sign_add b []))).
  Proof.
    induction pol as [|[k s] pol IH]; simpl; intros Hnd Hin.
    - apply list_elem_of_singleton in Hin as [= -> ->]. right. split; [done|].
      right. split; [inversion 1|done].
    - apply NoDup_cons in Hnd as [Hk Hnd].
      destruct (Z.eqb_spec k v) as [->|Hne].
      + apply elem_of_cons in Hin as [[= -> ->]|Hin].
        * right. split; [done|]. left. exists s. split; [left|done].
        * left. split; [|by right].
          intros ->. apply Hk. apply list_elem_of_fmap. by exists (v, signs).
      + apply elem_of_cons in Hin as [[= -> ->]|Hin].
        * left. split; [done|left].
        * destruct (IH Hnd Hin) as [[? ?]|[-> [(old & ? & ->)|[Hv ->]]]].
          -- left. split; [done|by right].
          -- right. split; [done|]. left. exists old. split; [by right|done].
          -- right. split; [done|]. right. split; [|done].
             simpl. rewrite elem_of_cons. intros [?|?]; [congruence|by apply Hv].
  Qed.

Lemma pol_inv_step lits pol lit :
    pol_inv lits pol →
    pol_inv (lits ++ [lit]) (pol_add (Z.abs lit) (Z.ltb 0 lit) pol).
  Proof.
    intros (Hnd & Hsg & Hkeys). split; [by apply pol_add_NoDup|]. split.
    - intros w signs b' Hin.
      destruct (pol_add_entry _ _ _ _ _ Hnd Hin)
        as [[Hne Hold]|[-> [(old & Hold & ->)|[Hfresh ->]]]].
      + rewrite (Hsg _ _ b' Hold). split.
        * intros (l & Hl & ? & ?). exists l. rewrite elem_of_app. auto.
        * intros (l & Hl & ? & ?). apply elem_of_app in Hl as [Hl|Hl]; [eauto|].
          apply list_elem_of_singleton in Hl as ->. done.
      + rewrite sign_add_elem, (Hsg _ _ b' Hold). split.
        * intros [(l & Hl & ? & ?)| ->].
          -- exists l. rewrite elem_of_app. auto.
          -- exists lit. rewrite elem_of_app, list_elem_of_singleton. auto.
        * intros (l & Hl & ? & ?). apply elem_of_app in Hl as [Hl|Hl]; [left; eauto|].
          apply list_elem_of_singleton in Hl as ->. by right.
      + rewrite sign_add_elem. split.
        * intros [H| ->]; [inversion H|].
          exists lit. rewrite elem_of_app, list_elem_of_singleton. auto.
        * intros (l & Hl & Habs & ?). apply elem_of_app in Hl as [Hl|Hl].
          -- exfalso. apply Hfresh. rewrite <- Habs. by apply Hkeys.
          -- apply list_elem_of_singleton in Hl as ->. by right.
    - intros l Hl. rewrite pol_add_keys. apply elem_of_app in Hl as [Hl|Hl]; [left; auto|].
      apply list_elem_of_singleton in Hl as ->. by right.
  Qed.

Lemma pol_fold_inv more lits pol :
    pol_inv lits pol →
    pol_inv (lits ++ more)
      (fold_left (λ pol lit, pol_add (Z.abs lit) (Z.ltb 0 lit) pol) more pol).
  Proof.
    revert lits pol. induction more as [|l more IH]; simpl; intros lits pol Hinv.
    - by rewrite app_nil_r.
    - replace (lits ++ l :: more) with ((lits ++ [l]) ++ more)
        by (by rewrite <- app_assoc).
      apply IH. by apply pol_inv_step.
  Qed.

Lemma pol_of_inv lits : pol_inv lits (pol_of lits).
  Proof.
    apply (pol_fold_inv lits [] []). split; [constructor|].
    split; [intros ??? H; inversion H|intros ? H; inversion H].
  Qed.

Lemma first_single_entry pol p :
    first_single pol = Some p →
    ∃ (w : Z) (b : bool), (w, [b]) ∈ pol ∧ p = if b then w else - w.
  Proof.
    induction pol as [|[w signs] pol IH]; simpl; [done|].
    destruct (Nat.eqb_spec (length signs) 1) as [Hlen|Hlen].
    - intros [= <-]. destruct signs as [|b [|??]]; try done.
      exists w, b. split; [left|].
      destruct b; case_bool_decide as Hb; try done.
      + exfalso. apply Hb. left.
      + apply list_elem_of_singleton in Hb. done.
    - intros Hp. destruct (IH Hp) as (w' & b & ? & ?). exists w', b. split; [by right|done].
  Qed.

  (** The literal answered by a pure-literal scan occurs among the scanned
      literals, and every scanned literal of the same variable is that very
      literal. *)
Lemma first_single_pure lits p :
    first_single (pol_of lits) = Some p →
    p ∈ lits ∧ ∀ l, l ∈ lits → Z.abs l = Z.abs p → l = p.
  Proof.
    intros Hp. destruct (first_single_entry _ _ Hp) as (w & b & Hin & ->).
    destruct (pol_of_inv lits) as (_ & Hsg & _).
    assert (Hb : ∃ l, l ∈ lits ∧ Z.abs l = w ∧ Z.ltb 0 l = b).
    { apply (Hsg w [b] b Hin). left. }
    destruct Hb as (l0 & Hl0 & Habs0 & Hs0).
    assert (Hp0 : l0 = if b then w else - w).
    { destruct b; [apply Z.ltb_lt in Hs0|apply Z.ltb_ge in Hs0]; lia. }
    split; [by rewrite <- Hp0|].
    intros l Hl Habs.
    assert (Hbl : Z.ltb 0 l ∈ [b]).
    { apply (Hsg w [b] _ Hin). exists l. split; [done|]. split; [|done].
      rewrite Habs. destruct b; lia. }
    apply list_elem_of_singleton in Hbl.
    destruct b; [apply Z.ltb_lt in Hbl, Hs0|apply Z.ltb_ge in Hbl, Hs0]; lia.
  Qed.

End PolarityTable.

(** * Semantics of CNF formulas *)

(** Well-formed input: no clause holds the literal [0]. *)
Definition wf (F : cnf) : Prop := Forall (λ c : clause, 0 ∉ c) F.

(** Truth of a literal under a valuation of the variables. *)
Definition lit_true (ρ : Z → bool) (l : Z) : bool :=
  if Z.ltb 0 l then ρ l else negb (ρ (- l)).

Definition csat (ρ : Z → bool) (c : clause) : Prop :=
  ∃ l, l ∈ c ∧ lit_true ρ l = true.

Definition fsat (ρ : Z → bool) (F : cnf) : Prop :=
  ∀ c, c ∈ F → csat ρ c.

Definition satisfiable (F : cnf) : Prop := ∃ ρ, fsat ρ F.

(** The valuation [ρ] changed so that the literal [l] is true. *)
Definition force (ρ : Z → bool) (l : Z) : Z → bool :=
  λ v, if Z.eqb v (Z.abs l) then Z.ltb 0 l else ρ v.

Lemma wf_elem F c l : wf F → c ∈ F → l ∈ c → l ≠ 0.
Proof.
  intros Hwf Hc Hl ->. unfold wf in Hwf. rewrite Forall_forall in Hwf.
  by apply (Hwf c Hc).
Qed.

Lemma lit_true_opp ρ l : l ≠ 0 → lit_true ρ (- l) = negb (lit_true ρ l).
Proof.
  intros Hl. unfold lit_true.
  destruct (Z.ltb_spec 0 l), (Z.ltb_spec 0 (- l)); try lia.
  - by rewrite Z.opp_involutive.
  - by rewrite negb_involutive.
Qed.

Lemma force_true ρ l : l ≠ 0 → lit_true (force ρ l) l = true.
Proof.
  intros Hl. unfold lit_true, force.
  destruct (Z.ltb 0 l) eqn:E.
  - apply Z.ltb_lt in E. by rewrite (proj2 (Z.eqb_eq l (Z.abs l))) by lia.
  - apply Z.ltb_ge in E. by rewrite (proj2 (Z.eqb_eq (- l) (Z.abs l))) by lia.
Qed.

Lemma force_other ρ l x : Z.abs x ≠ Z.abs l → lit_true (force ρ l) x = lit_true ρ x.
Proof.
  intros Hx. unfold lit_true, force.
  destruct (Z.ltb_spec 0 x).
  - rewrite (proj2 (Z.eqb_neq _ _)) by lia. done.
  - rewrite (proj2 (Z.eqb_neq _ _)) by lia. done.
Qed.

Lemma true_literal_of_abs ρ l :
  l ≠ 0 → lit_true ρ (Z.abs l) = true ∨ lit_true ρ (- Z.abs l) = true.
Proof.
  intros Hl. rewrite (lit_true_opp ρ (Z.abs l)) by lia.
  destruct (lit_true ρ (Z.abs l)); auto.
Qed.

Lemma satisfiable_nil : satisfiable [].
Proof. exists (λ _, true). intros c Hc. inversion Hc. Qed.

Lemma unsat_empty_clause F : [] ∈ F → ¬ satisfiable F.
Proof. intros Hin [ρ Hρ]. destruct (Hρ _ Hin) as (l & Hl & _). inversion Hl. Qed.

Lemma satisfiable_subset F G : (∀ c, c ∈ G → c ∈ F) → satisfiable F → satisfiable G.
Proof. intros Hsub [ρ Hρ]. exists ρ. intros c Hc. auto. Qed.

(** * Facts about the helpers of dp.py *)
Module DPFacts.
Import DP.

Lemma pol_table_flat clauses : pol_table clauses = pol_of (concat clauses).
Proof.
  unfold pol_table, pol_of. generalize (@nil (Z * list bool)).
  induction clauses as [|c cs IH]; simpl; intros pol; [done|].
  rewrite fold_left_app. apply IH.
Qed.

(** What [find_pure_literal] answers: a literal that occurs, and whose
    variable occurs with that polarity only. *)
Lemma find_pure_literal_spec clauses p :
  find_pure_literal clauses = Some p →
  (∃ c, c ∈ clauses ∧ p ∈ c) ∧
  (∀ c l, c ∈ clauses → l ∈ c → Z.abs l = Z.abs p → l = p).
Proof.
  unfold find_pure_literal. rewrite pol_table_flat. intros Hp.
  apply first_single_pure in Hp as [Hin Hall]. split.
  - apply elem_of_concat in Hin as (c & ? & ?). eauto.
  - intros c l Hc Hl. apply Hall. apply elem_of_concat. eauto.
Qed.

Lemma find_unit_clause_spec clauses u :
  find_unit_clause clauses = Some u → [u] ∈ clauses.
Proof.
  induction clauses as [|c cs IH]; simpl; [done|].
  destruct c as [|x [|y c]]; intros H.
  - right. auto.
  - injection H as ->. left.
  - right. auto.
Qed.

(** [unit_propagate] either hits its early return, or filters and maps. *)
Lemma unit_propagate_loop_spec clauses u new :
  (unit_propagate_loop clauses u new = [[]] ∧
   ∃ c, c ∈ clauses ∧ u ∉ c ∧ - u ∈ c ∧ filter (λ lit, lit ≠ - u) c = [])
  ∨
  (unit_propagate_loop clauses u new =
     new ++ map (filter (λ lit, lit ≠ - u)) (filter (λ c, u ∉ c) clauses) ∧
   ∀ c, c ∈ clauses → u ∉ c → filter (λ lit, lit ≠ - u) c ≠ [] ∨ - u ∉ c).
Proof.
  revert new. induction clauses as [|c cs IH]; simpl; intros new.
  - right. rewrite app_nil_r. split; [done|]. intros c Hc. inversion Hc.
  - destruct (decide (u ∈ c)) as [Hu|Hu].
    + rewrite filter_cons_False by tauto.
      destruct (IH new) as [[-> (c' & ? & ?)]|[-> Hall]].
      * left. split; [done|]. exists c'. split; [by right|done].
      * right. split; [done|]. intros c' [->|?]%elem_of_cons ?; [done|auto].
    + rewrite filter_cons_True by done. simpl.
      destruct (decide (- u ∈ c)) as [Hn|Hn].
      * destruct (filter (λ lit, lit ≠ - u) c) as [|x r] eqn:Hr.
        -- left. split; [done|]. exists c. split; [left|done].
        -- destruct (IH (new ++ [x :: r])) as [[-> (c' & ? & ?)]|[-> Hall]].
           ++ left. split; [done|]. exists c'. split; [by right|done].
           ++ right. split; [by rewrite <- app_assoc|].
              intros c' [->|?]%elem_of_cons ?; [|auto]. left. by rewrite Hr.
      * assert (Hc : filter (λ lit, lit ≠ - u) c = c).
        { apply filter_id. intros x Hx ->. done. }
        rewrite Hc.
        destruct (IH (new ++ [c])) as [[-> (c' & ? & ?)]|[-> Hall]].
        -- left. split; [done|]. exists c'. split; [by right|done].
        -- right. split; [by rewrite <- app_assoc|].
           intros c' [->|?]%elem_of_cons ?; [|auto]. by right.
Qed.

Lemma unit_propagate_spec clauses u :
  (unit_propagate clauses u = [[]] ∧
   ∃ c, c ∈ clauses ∧ u ∉ c ∧ - u ∈ c ∧ filter (λ lit, lit ≠ - u) c = [])
  ∨
  (unit_propagate clauses u =
     map (filter (λ lit, lit ≠ - u)) (filter (λ c, u ∉ c) clauses) ∧
   ∀ c, c ∈ clauses → u ∉ c → filter (λ lit, lit ≠ - u) c ≠ [] ∨ - u ∉ c).
Proof. apply (unit_propagate_loop_spec clauses u []). Qed.

Lemma fromkeys_elem R x : x ∈ fromkeys R ↔ x ∈ R.
Proof.
  unfold fromkeys.
  assert (H : ∀ acc, x ∈ fold_left
      (λ acc l, if decide (l ∈ acc) then acc else acc ++ [l]) R acc ↔ x ∈ acc ∨ x ∈ R).
  { induction R as [|l R IH]; simpl; intros acc.
    - split; [auto|]. intros [?|H]; [done|inversion H].
    - rewrite IH, elem_of_cons. destruct (decide (l ∈ acc)) as [Hl|Hl].
      + split; [tauto|]. intros [?|[->|?]]; auto.
      + rewrite elem_of_app, list_elem_of_singleton. tauto. }
  rewrite H. split; [|auto]. intros [H'|?]; [inversion H'|done].
Qed.

Lemma tautology_true R : tautology R = true ↔ ∃ l, l ∈ R ∧ - l ∈ R.
Proof.
  unfold tautology. rewrite existsb_exists. split.
  - intros (l & Hl & Hn). exists l. apply list_elem_of_In in Hl.
    apply bool_decide_eq_true in Hn. done.
  - intros (l & Hl & Hn). exists l. rewrite <- list_elem_of_In.
    split; [done|]. by apply bool_decide_eq_true.
Qed.

Lemma resolvents_of_elem var pos neg R :
  R ∈ resolvents_of var pos neg ↔
  ∃ C D, C ∈ pos ∧ D ∈ neg ∧
    R = fromkeys (filter (λ l, l ≠ var) C ++ filter (λ l, l ≠ - var) D) ∧
    tautology R = false.
Proof.
  unfold resolvents_of. rewrite list_elem_of_In, in_flat_map. split.
  - intros (C & HC & HR). apply in_flat_map in HR as (D & HD & HR).
    exists C, D. rewrite !list_elem_of_In. split; [done|]. split; [done|].
    destruct (tautology _) eqn:Ht; simpl in HR; [done|].
    destruct HR as [<-|[]]. done.
  - intros (C & D & HC & HD & -> & Ht). exists C.
    rewrite <- list_elem_of_In. split; [done|]. apply in_flat_map. exists D.
    rewrite <- list_elem_of_In. split; [done|]. rewrite Ht. by left.
Qed.

Lemma eliminate_elem var clauses R :
  R ∈ eliminate var clauses ↔
  (R ∈ clauses ∧ var ∉ R ∧ - var ∉ R) ∨
  (∃ C D, C ∈ clauses ∧ var ∈ C ∧ D ∈ clauses ∧ - var ∈ D ∧
    R = fromkeys (filter (λ l, l ≠ var) C ++ filter (λ l, l ≠ - var) D) ∧
    tautology R = false).
Proof.
  unfold eliminate. rewrite elem_of_app, list_elem_of_filter, resolvents_of_elem.
  split.
  - intros [[[??]?]|(C & D & [??]%list_elem_of_filter & [??]%list_elem_of_filter & ? & ?)].
    + left. done.
    + right. exists C, D. done.
  - intros [(? & ? & ?)|(C & D & ? & ? & ? & ? & ? & ?)].
    + left. done.
    + right. exists C, D. rewrite !list_elem_of_filter. done.
Qed.

End DPFacts.

(** * Termination of [dp_eliminate] *)
Module DPTermination.
Import DP DPFacts.

(** The active variables of a formula. *)
Definition vars (F : cnf) : gset Z := list_to_set (map Z.abs (concat F)).

(** The variables that occur with both polarities inside one clause. *)
Definition tvars (F : cnf) : gset Z :=
  list_to_set (map Z.abs (concat (map (λ c, filter (λ l, - l ∈ c) c) F))).

(** The quantity that decreases along the recursion. *)
Definition measure (F : cnf) : nat := size (vars F) + size (tvars F).

Lemma elem_of_vars F v : v ∈ vars F ↔ ∃ c l, c ∈ F ∧ l ∈ c ∧ Z.abs l = v.
Proof.
  unfold vars. rewrite elem_of_list_to_set, list_elem_of_In, in_map_iff. split.
  - intros (l & <- & Hl). apply list_elem_of_In, elem_of_concat in Hl as (c & ? & ?).
    eauto.
  - intros (c & l & ? & ? & <-). exists l. split; [done|].
    apply list_elem_of_In, elem_of_concat. eauto.
Qed.

Lemma elem_of_tvars F v :
  v ∈ tvars F ↔ ∃ c l, c ∈ F ∧ l ∈ c ∧ - l ∈ c ∧ Z.abs l = v.
Proof.
  unfold tvars. rewrite elem_of_list_to_set, list_elem_of_In, in_map_iff. split.
  - intros (l & <- & Hl). apply list_elem_of_In, elem_of_concat in Hl as (c' & Hc' & Hl).
    apply list_elem_of_In, in_map_iff in Hc' as (c & <- & Hc).
    apply list_elem_of_filter in Hl as [? ?]. exists c, l.
    by rewrite list_elem_of_In.
  - intros (c & l & ? & ? & ? & <-). exists l. split; [done|].
    apply list_elem_of_In, elem_of_concat. exists (filter (λ l, - l ∈ c) c).
    split; [|by apply list_elem_of_filter].
    apply list_elem_of_In, in_map_iff. exists c. by rewrite <- list_elem_of_In.
Qed.

Lemma measure_lt F F' :
  vars F' ⊆ vars F → tvars F' ⊆ tvars F →
  vars F' ⊂ vars F ∨ tvars F' ⊂ tvars F →
  (measure F' < measure F)%nat.
Proof.
  intros Hv Ht Hstrict. unfold measure.
  pose proof (subseteq_size _ _ Hv). pose proof (subseteq_size _ _ Ht).
  destruct Hstrict as [H'|H']; apply subset_size in H'; lia.
Qed.

Lemma strict_by_witness (X Y : gset Z) v : X ⊆ Y → v ∈ Y → v ∉ X → X ⊂ Y.
Proof. intros Hsub Hin Hout. split; [done|]. intros Hrev. apply Hout. auto. Qed.

(** ** The pure-literal step *)
Lemma pure_step_vars F p :
  find_pure_literal F = Some p →
  vars (filter (λ c, p ∉ c) F) ⊂ vars F ∧
  tvars (filter (λ c, p ∉ c) F) ⊆ tvars F.
Proof.
  intros [(c0 & Hc0 & Hp0) Hpure]%find_pure_literal_spec. split.
  - apply (strict_by_witness _ _ (Z.abs p)).
    + intros v (c & l & [? ?]%list_elem_of_filter & ? & ?)%elem_of_vars.
      apply elem_of_vars. eauto.
    + apply elem_of_vars. eauto.
    + intros (c & l & [Hn Hc]%list_elem_of_filter & Hl & Habs)%elem_of_vars.
      apply Hn. by rewrite <- (Hpure c l Hc Hl Habs).
  - intros v (c & l & [? ?]%list_elem_of_filter & ? & ? & ?)%elem_of_tvars.
    apply elem_of_tvars. exists c, l. done.
Qed.

(** ** The unit-propagation step *)
Lemma unit_step_vars F u :
  find_unit_clause F = Some u →
  vars (unit_propagate F u) ⊂ vars F ∧
  tvars (unit_propagate F u) ⊆ tvars F.
Proof.
  intros Hu%find_unit_clause_spec.
  assert (Hin : Z.abs u ∈ vars F).
  { apply elem_of_vars. exists [u], u. split; [done|]. split; [left|done]. }
  destruct (unit_propagate_spec F u) as [[-> _]|[-> _]].
  - split.
    + apply (strict_by_witness _ _ (Z.abs u)); [|done|].
      * intros v (c & l & Hc & Hl & _)%elem_of_vars.
        apply list_elem_of_singleton in Hc as ->. inversion Hl.
      * intros (c & l & Hc & Hl & _)%elem_of_vars.
        apply list_elem_of_singleton in Hc as ->. inversion Hl.
    + intros v (c & l & Hc & Hl & _)%elem_of_tvars.
      apply list_elem_of_singleton in Hc as ->. inversion Hl.
  - assert (Hmap : ∀ c', c' ∈ map (filter (λ lit, lit ≠ - u)) (filter (λ c, u ∉ c) F) →
        ∃ c, c ∈ F ∧ u ∉ c ∧ c' = filter (λ lit, lit ≠ - u) c).
    { intros c' (c & <- & Hc)%list_elem_of_In%in_map_iff.
      apply list_elem_of_In, list_elem_of_filter in Hc as [? ?]. eauto. }
    split.
    + apply (strict_by_witness _ _ (Z.abs u)); [|done|].
      * intros v (c' & l & (c & ? & ? & ->)%Hmap & [? ?]%list_elem_of_filter & ?)%elem_of_vars.
        apply elem_of_vars. eauto.
      * intros (c' & l & (c & ? & Hnu & ->)%Hmap & [Hne Hl]%list_elem_of_filter & Habs)%elem_of_vars.
        assert (l = u ∨ l = - u) as [->| ->] by lia; done.
    + intros v (c' & l & (c & ? & ? & ->)%Hmap & [? ?]%list_elem_of_filter
                 & [? ?]%list_elem_of_filter & ?)%elem_of_tvars.
      apply elem_of_tvars. exists c, l. done.
Qed.

(** ** The elimination step *)
Lemma resolvent_literal var C D l :
  l ∈ fromkeys (filter (λ l, l ≠ var) C ++ filter (λ l, l ≠ - var) D) ↔
  (l ∈ C ∧ l ≠ var) ∨ (l ∈ D ∧ l ≠ - var).
Proof.
  rewrite fromkeys_elem, elem_of_app, !list_elem_of_filter. tauto.
Qed.

Lemma eliminate_step_vars F lit0 c0 :
  c0 ∈ F → lit0 ∈ c0 →
  let var := Z.abs lit0 in
  let F' := eliminate var F in
  vars F' ⊆ vars F ∧ tvars F' ⊆ tvars F ∧
  (var ∉ tvars F → vars F' ⊂ vars F) ∧
  (var ∈ tvars F → tvars F' ⊂ tvars F).
Proof.
  intros Hc0 Hl0 var F'.
  assert (Hvar : var ∈ vars F) by (apply elem_of_vars; eauto).
  assert (Hsub : vars F' ⊆ vars F).
  { intros v (R & l & HR & Hl & Habs)%elem_of_vars. apply elem_of_vars.
    apply eliminate_elem in HR as [(? & _)|(C & D & ? & _ & ? & _ & -> & _)]; [eauto|].
    apply resolvent_literal in Hl as [[? _]|[? _]]; eauto. }
  assert (Ht : ∀ v, v ∈ tvars F' → v ∈ tvars F ∧ v ≠ var).
  { intros v (R & l & HR & Hl & Hn & Habs)%elem_of_tvars.
    apply eliminate_elem in HR as [(HR & Hp & Hq)|(C & D & _ & _ & _ & _ & _ & Htaut)].
    - split; [apply elem_of_tvars; exists R, l; done|].
      intros Hv. assert (l = var ∨ l = - var) as [->| ->] by (unfold var in *; lia); done.
    - exfalso. assert (tautology R = true); [|congruence].
      apply tautology_true. eauto. }
  split; [done|]. split; [intros v Hv; by apply Ht|]. split.
  - intros Hnt. apply (strict_by_witness _ _ var); [done..|].
    intros (R & l & HR & Hl & Habs)%elem_of_vars.
    assert (Hl' : l = var ∨ l = - var) by (unfold var in *; lia).
    apply eliminate_elem in HR as [(HR & Hp & Hq)|(C & D & HC & HvC & HD & HvD & -> & _)].
    + destruct Hl' as [->| ->]; done.
    + apply Hnt, elem_of_tvars.
      apply resolvent_literal in Hl as [[? ?]|[? ?]].
      * exists C, var. destruct Hl' as [->| ->]; [done|].
        split; [done|]. split; [done|]. split; [done|]. unfold var; lia.
      * exists D, var. destruct Hl' as [->| ->]; [|done].
        split; [done|]. split; [done|]. split; [done|]. unfold var; lia.
  - intros Hin. apply (strict_by_witness _ _ var); [|done|].
    + intros v Hv; by apply Ht.
    + intros Hv. by destruct (Ht _ Hv).
Qed.

Lemma first_literal_some F :
  existsb (λ c, Nat.eqb (length c) 0) F = false →
  Nat.eqb (length F) 0 = false →
  ∃ lit0 c0, first_literal F = Some lit0 ∧ c0 ∈ F ∧ lit0 ∈ c0.
Proof.
  destruct F as [|[|l c] F]; simpl; try done.
  intros _ _. exists l, (l :: c). split; [done|]. split; left.
Qed.

Lemma first_literal_elem F lit0 :
  first_literal F = Some lit0 → ∃ c0, c0 ∈ F ∧ lit0 ∈ c0.
Proof.
  destruct F as [|[|l c] F]; simpl; try done.
  intros [= ->]. exists (lit0 :: c). split; left.
Qed.

(** Enough fuel always yields a verdict. *)
Lemma dp_eliminate_enough_fuel n F :
  (measure F < n)%nat → ∃ b, dp_eliminate n F = Some b.
Proof.
  revert F. induction n as [|n IH]; intros F Hlt; [lia|]. simpl.
  destruct (existsb _ F) eqn:Hempty; [eauto|].
  destruct (Nat.eqb (length F) 0) eqn:Hnil; [eauto|].
  destruct (find_pure_literal F) as [p|] eqn:Hp.
  { apply IH. destruct (pure_step_vars F p Hp) as [Hv Ht].
    pose proof (measure_lt F (filter (λ c, p ∉ c) F) (proj1 Hv) Ht (or_introl Hv)). lia. }
  destruct (find_unit_clause F) as [u|] eqn:Hu.
  { apply IH. destruct (unit_step_vars F u Hu) as [Hv Ht].
    pose proof (measure_lt F (unit_propagate F u) (proj1 Hv) Ht (or_introl Hv)). lia. }
  destruct (first_literal_some F Hempty Hnil) as (lit0 & c0 & -> & Hc0 & Hl0).
  apply IH.
  destruct (eliminate_step_vars F lit0 c0 Hc0 Hl0) as (Hv & Ht & Hs1 & Hs2).
  assert (measure (eliminate (Z.abs lit0) F) < measure F)%nat; [|lia].
  apply measure_lt; [done..|].
  destruct (decide (Z.abs lit0 ∈ tvars F)); [right|left]; auto.
Qed.

(** More fuel never changes a verdict. *)
Lemma dp_eliminate_fuel_mono n m F b :
  dp_eliminate n F = Some b → (n ≤ m)%nat → dp_eliminate m F = Some b.
Proof.
  revert m F. induction n as [|n IH]; intros m F Hn Hle; [done|].
  destruct m as [|m]; [lia|]. simpl in *.
  destruct (existsb _ F); [done|].
  destruct (Nat.eqb (length F) 0); [done|].
  destruct (find_pure_literal F); [apply IH; [done|lia]|].
  destruct (find_unit_clause F); [apply IH; [done|lia]|].
  destruct (first_literal F); [apply IH; [done|lia]|done].
Qed.

End DPTermination.

(** * Correctness of [dp_eliminate] with respect to satisfiability *)
Module DPCorrect.
Import DP DPFacts.

Lemma wf_forall F : wf F ↔ ∀ c l, c ∈ F → l ∈ c → l ≠ 0.
Proof.
  unfold wf. rewrite Forall_forall. split.
  - intros H c l Hc Hl ->. by apply (H c Hc).
  - intros H c Hc H0. by apply (H c 0 Hc H0).
Qed.

Lemma abs_cases l v : Z.abs l = Z.abs v → l = v ∨ l = - v.
Proof. lia. Qed.

(** ** Pure literals *)
Lemma pure_step_wf F p : wf F → wf (filter (λ c, p ∉ c) F).
Proof.
  rewrite !wf_forall. intros H c l [_ Hc]%list_elem_of_filter. by apply H.
Qed.

Lemma pure_step_sat F p :
  wf F → find_pure_literal F = Some p →
  satisfiable (filter (λ c, p ∉ c) F) ↔ satisfiable F.
Proof.
  intros Hwf [(c0 & Hc0 & Hp0) Hpure]%find_pure_literal_spec.
  assert (Hp : p ≠ 0) by (by apply (wf_elem F c0)).
  split.
  - intros [ρ Hρ]. exists (force ρ p). intros c Hc.
    destruct (decide (p ∈ c)) as [Hin|Hout].
    + exists p. split; [done|]. by apply force_true.
    + destruct (Hρ c) as (l & Hl & Ht); [by apply list_elem_of_filter|].
      exists l. split; [done|]. rewrite force_other; [done|].
      intros Habs. apply Hout. by rewrite <- (Hpure c l Hc Hl Habs).
  - apply satisfiable_subset. intros c [_ ?]%list_elem_of_filter. done.
Qed.

(** ** Unit propagation *)
Lemma unit_step_wf F u : wf F → wf (unit_propagate F u).
Proof.
  rewrite !wf_forall. intros H c l.
  destruct (unit_propagate_spec F u) as [[-> _]|[-> _]].
  - intros ->%list_elem_of_singleton Hl. inversion Hl.
  - intros (c' & <- & Hc')%list_elem_of_In%in_map_iff [_ Hl]%list_elem_of_filter.
    apply list_elem_of_In, list_elem_of_filter in Hc' as [_ Hc']. by apply (H c').
Qed.

Lemma unit_propagate_sat F u :
  wf F → [u] ∈ F →
  satisfiable (unit_propagate F u) ↔ satisfiable F.
Proof.
  intros Hwf Hu.
  assert (Hu0 : u ≠ 0). { apply (wf_elem F [u]); [done..|left]. }
  assert (Hunit : ∀ ρ, fsat ρ F → lit_true ρ u = true).
  { intros ρ Hρ. destruct (Hρ _ Hu) as (l & ->%list_elem_of_singleton & ?). done. }
  destruct (unit_propagate_spec F u) as [[-> (c & Hc & Hnu & Hn & Hnil)]|[-> Hall]].
  - split; [intros H; exfalso; revert H; apply unsat_empty_clause; left|].
    intros [ρ Hρ]. exfalso. destruct (Hρ c Hc) as (l & Hl & Ht).
    assert (l = - u).
    { destruct (decide (l = - u)) as [|Hne]; [done|].
      assert (Hin : l ∈ filter (λ lit, lit ≠ - u) c) by (by apply list_elem_of_filter).
      rewrite Hnil in Hin. inversion Hin. }
    subst l. rewrite lit_true_opp, (Hunit ρ Hρ) in Ht; done.
  - split.
    + intros [ρ Hρ]. exists (force ρ u). intros c Hc.
      destruct (decide (u ∈ c)) as [Hin|Hout].
      * exists u. split; [done|]. by apply force_true.
      * destruct (Hρ (filter (λ lit, lit ≠ - u) c)) as (l & [Hne Hl]%list_elem_of_filter & Ht).
        { apply list_elem_of_In, in_map_iff. exists c. split; [done|].
          by apply list_elem_of_In, list_elem_of_filter. }
        exists l. split; [done|]. rewrite force_other; [done|].
        intros [->| ->]%abs_cases; done.
    + intros [ρ Hρ]. exists ρ.
      intros c' (c & <- & Hc)%list_elem_of_In%in_map_iff.
      apply list_elem_of_In, list_elem_of_filter in Hc as [Hout Hc].
      destruct (Hρ c Hc) as (l & Hl & Ht). exists l. split; [|done].
      apply list_elem_of_filter. split; [|done]. intros ->.
      rewrite lit_true_opp, (Hunit ρ Hρ) in Ht; done.
Qed.

Lemma unit_step_sat F u :
  wf F → find_unit_clause F = Some u →
  satisfiable (unit_propagate F u) ↔ satisfiable F.
Proof. intros Hwf Hu%find_unit_clause_spec. by apply unit_propagate_sat. Qed.

(** ** Elimination of a variable by resolution *)
Lemma eliminate_wf F var : wf F → wf (eliminate var F).
Proof.
  rewrite !wf_forall. intros H R l HR Hl.
  apply eliminate_elem in HR as [(HR & _)|(C & D & HC & _ & HD & _ & -> & _)].
  - by apply (H R).
  - apply fromkeys_elem, elem_of_app in Hl as [[_ ?]%list_elem_of_filter|[_ ?]%list_elem_of_filter].
    + by apply (H C).
    + by apply (H D).
Qed.

Lemma eliminate_sat_1 F var :
  wf F → var ≠ 0 → satisfiable F → satisfiable (eliminate var F).
Proof.
  intros Hwf Hvar [ρ Hρ]. exists ρ. intros R HR.
  apply eliminate_elem in HR as [(HR & _)|(C & D & HC & HvC & HD & HvD & -> & _)];
    [by apply Hρ|].
  destruct (Hρ C HC) as (l & Hl & Ht). destruct (Hρ D HD) as (l' & Hl' & Ht').
  destruct (decide (l = var)) as [->|Hne].
  - exists l'. split; [|done].
    apply fromkeys_elem, elem_of_app. right. apply list_elem_of_filter.
    split; [|done]. intros ->. rewrite lit_true_opp, Ht in Ht'; done.
  - exists l. split; [|done].
    apply fromkeys_elem, elem_of_app. left. by apply list_elem_of_filter.
Qed.

Lemma true_literal_of_pair ρ l : l ≠ 0 → lit_true ρ l = true ∨ lit_true ρ (- l) = true.
Proof. intros Hl. rewrite lit_true_opp by done. destruct (lit_true ρ l); auto. Qed.

Lemma eliminate_sat_2 F var :
  wf F → var ≠ 0 → satisfiable (eliminate var F) → satisfiable F.
Proof.
  intros Hwf Hvar [ρ Hρ].
  assert (Hrest : ∀ c, c ∈ F → var ∉ c → - var ∉ c → ∀ x, Z.abs x = Z.abs var →
            csat (force ρ x) c).
  { intros c Hc Hp Hn x Hx. destruct (Hρ c) as (l & Hl & Ht).
    { apply eliminate_elem. left. done. }
    exists l. split; [done|]. rewrite force_other; [done|].
    rewrite Hx. intros [->| ->]%abs_cases; done. }
  (* A clause with [var] only positively whose other literals are all false. *)
  destruct (decide (Exists (λ C : clause, var ∈ C ∧
              Forall (λ l, l = var ∨ lit_true ρ l = false) C) F)) as [Hex|Hno].
  - apply Exists_exists in Hex as (C0 & HC0 & HvC0 & Hfalse).
    rewrite Forall_forall in Hfalse.
    exists (force ρ var). intros c Hc.
    destruct (decide (var ∈ c)) as [Hp|Hp].
    { exists var. split; [done|]. by apply force_true. }
    destruct (decide (- var ∈ c)) as [Hn|Hn]; [|by apply Hrest].
    set (R := fromkeys (filter (λ l, l ≠ var) C0 ++ filter (λ l, l ≠ - var) c)).
    assert (HR : ∀ l, l ∈ R → lit_true ρ l = true → l ∈ c ∧ l ≠ - var).
    { intros l [[Hne Hl]%list_elem_of_filter|[Hne Hl]%list_elem_of_filter]%fromkeys_elem%elem_of_app Ht.
      - destruct (Hfalse l Hl); congruence.
      - done. }
    assert (Hfound : ∃ l, l ∈ c ∧ l ≠ - var ∧ lit_true ρ l = true).
    { destruct (tautology R) eqn:Htaut.
      - apply tautology_true in Htaut as (l & Hl & Hnl).
        assert (Hl0 : l ≠ 0).
        { unfold R in Hl.
          apply fromkeys_elem, elem_of_app in Hl as [[_ ?]%list_elem_of_filter|[_ ?]%list_elem_of_filter].
          - by apply (wf_elem F C0).
          - by apply (wf_elem F c). }
        destruct (true_literal_of_pair ρ l Hl0) as [Ht|Ht].
        + exists l. destruct (HR l Hl Ht). done.
        + exists (- l). destruct (HR (- l) Hnl Ht). done.
      - destruct (Hρ R) as (l & Hl & Ht).
        { apply eliminate_elem. right. exists C0, c. done. }
        exists l. destruct (HR l Hl Ht). done. }
    destruct Hfound as (l & Hl & Hne & Ht). exists l. split; [done|].
    rewrite force_other; [done|]. intros [->| ->]%abs_cases; done.
  - exists (force ρ (- var)). intros c Hc.
    destruct (decide (- var ∈ c)) as [Hn|Hn].
    { exists (- var). split; [done|]. apply force_true. lia. }
    destruct (decide (var ∈ c)) as [Hp|Hp]; [|apply Hrest; [done..|lia]].
    assert (Hfound : ∃ l, l ∈ c ∧ l ≠ var ∧ lit_true ρ l = true).
    { destruct (decide (Exists (λ l, l ≠ var ∧ lit_true ρ l = true) c)) as [He|He].
      - apply Exists_exists in He as (l & ? & ? & ?). eauto.
      - exfalso. apply Hno. apply Exists_exists. exists c. split; [done|].
        split; [done|]. apply Forall_forall. intros l Hl.
        destruct (decide (l = var)); [by left|]. right.
        destruct (lit_true ρ l) eqn:Ht; [|done].
        exfalso. apply He. apply Exists_exists. exists l. done. }
    destruct Hfound as (l & Hl & Hne & Ht). exists l. split; [done|].
    rewrite force_other; [done|]. rewrite Z.abs_opp. intros [->| ->]%abs_cases; done.
Qed.

(** ** The verdict of [dp_eliminate] is the satisfiability of its input *)
Lemma has_empty_clause F :
  existsb (λ c : clause, Nat.eqb (length c) 0) F = true → [] ∈ F.
Proof.
  intros (c & Hc & Hlen)%existsb_exists. apply Nat.eqb_eq in Hlen.
  destruct c; [|done]. by apply list_elem_of_In.
Qed.

Lemma dp_eliminate_correct n F b :
  wf F → dp_eliminate n F = Some b → (b = true ↔ satisfiable F).
Proof.
  revert F. induction n as [|n IH]; intros F Hwf; [done|]. simpl.
  destruct (existsb _ F) eqn:Hempty.
  { intros [= <-]. split; [done|]. intros Hs. exfalso.
    by apply (unsat_empty_clause F); [apply has_empty_clause|]. }
  destruct (Nat.eqb (length F) 0) eqn:Hnil.
  { intros [= <-]. apply Nat.eqb_eq in Hnil. destruct F; [|done].
    split; [intros _; apply satisfiable_nil|done]. }
  destruct (find_pure_literal F) as [p|] eqn:Hp.
  { intros Hrun. rewrite <- (pure_step_sat F p Hwf Hp).
    apply IH; [by apply pure_step_wf|done]. }
  destruct (find_unit_clause F) as [u|] eqn:Hu.
  { intros Hrun. rewrite <- (unit_step_sat F u Hwf Hu).
    apply IH; [by apply unit_step_wf|done]. }
  destruct (first_literal F) as [lit0|] eqn:Hl0; [|done].
  intros Hrun. destruct (DPTermination.first_literal_elem F lit0 Hl0) as (c0 & Hc0 & Hin0).
  assert (Hvar : Z.abs lit0 ≠ 0).
  { pose proof (wf_elem F c0 lit0 Hwf Hc0 Hin0). lia. }
  rewrite (IH _ (eliminate_wf F _ Hwf) Hrun). split.
  - by apply eliminate_sat_2.
  - by apply eliminate_sat_1.
Qed.

End DPCorrect.

(** * Facts about the helpers of dpll.py *)
Module DPLLFacts.
Import DPLL.

(** Making the literal [l] true: the clauses that hold [l] go, and [- l]
    goes from the others. *)
Definition assign (F : cnf) (l : Z) : cnf :=
  map (filter (λ x, x ≠ - l)) (filter (λ c, l ∉ c) F).

Lemma simplify_assign F var value :
  simplify F var value = assign F (if value then var else - var).
Proof.
  unfold assign. induction F as [|c F IH]; simpl; [done|].
  destruct (decide ((if value then var else - var) ∈ c)) as [Hin|Hout].
  - rewrite filter_cons_False by tauto. done.
  - rewrite filter_cons_True by done. simpl. rewrite IH. f_equal.
    destruct value; [done|]. by rewrite Z.opp_involutive.
Qed.

(** [simplify] as the unit and pure-literal rules call it. *)
Lemma simplify_literal F l : simplify F (Z.abs l) (Z.ltb 0 l) = assign F l.
Proof.
  rewrite simplify_assign. f_equal.
  destruct (Z.ltb_spec 0 l); lia.
Qed.

Lemma elem_of_assign F l c' :
  c' ∈ assign F l ↔ ∃ c, c ∈ F ∧ l ∉ c ∧ c' = filter (λ x, x ≠ - l) c.
Proof.
  unfold assign. rewrite list_elem_of_In, in_map_iff. split.
  - intros (c & <- & [? ?]%list_elem_of_In%list_elem_of_filter). eauto.
  - intros (c & ? & ? & ->). exists c. split; [done|].
    by apply list_elem_of_In, list_elem_of_filter.
Qed.

Lemma unit_clause_spec F m u :
  unit_clause F m = Some u →
  u ∉ m ∧ - u ∉ m ∧ ∃ c, c ∈ F ∧ filter (λ lit, - lit ∉ m) c = [u].
Proof.
  induction F as [|c F IH]; simpl; [done|].
  assert (Hrec : unit_clause F m = Some u →
     u ∉ m ∧ - u ∉ m ∧ ∃ c0, c0 ∈ c :: F ∧ filter (λ lit, - lit ∉ m) c0 = [u]).
  { intros (? & ? & c0 & ? & ?)%IH. split; [done|]. split; [done|].
    exists c0. split; [by right|done]. }
  destruct (filter (λ lit, - lit ∉ m) c) as [|x [|y r]] eqn:Hf; [done| |done].
  destruct (decide ((x ∉ m) ∧ (- x ∉ m))) as [[? ?]|?]; [|done].
  intros [= <-]. split; [done|]. split; [done|]. exists c. split; [left|done].
Qed.

Lemma counts_clause_flat m counts c :
  counts_clause m counts c =
  fold_left (λ pol lit, pol_add (Z.abs lit) (Z.ltb 0 lit) pol)
    (filter (λ lit, ¬ (lit ∈ m ∨ - lit ∈ m)) c) counts.
Proof.
  unfold counts_clause. revert counts.
  induction c as [|l c IH]; simpl; intros counts; [done|].
  destruct (decide (l ∈ m ∨ - l ∈ m)) as [Ha|Ha].
  - rewrite filter_cons_False by tauto. apply IH.
  - rewrite filter_cons_True by done. simpl. apply IH.
Qed.

Lemma counts_table_flat F m :
  counts_table F m =
  pol_of (concat (map (filter (λ lit, ¬ (lit ∈ m ∨ - lit ∈ m))) F)).
Proof.
  unfold counts_table, pol_of. generalize (@nil (Z * list bool)).
  induction F as [|c F IH]; simpl; intros pol; [done|].
  rewrite fold_left_app, <- counts_clause_flat. apply IH.
Qed.

Lemma pure_literal_spec F m p :
  pure_literal F m = Some p →
  p ∉ m ∧ - p ∉ m ∧ (∃ c, c ∈ F ∧ p ∈ c) ∧
  (∀ c l, c ∈ F → l ∈ c → l ∉ m → - l ∉ m → Z.abs l = Z.abs p → l = p).
Proof.
  unfold pure_literal. rewrite counts_table_flat.
  intros [Hin Hall]%first_single_pure.
  apply elem_of_concat in Hin as (c' & (c & <- & Hc)%list_elem_of_In%in_map_iff & [Hun Hp]%list_elem_of_filter).
  apply list_elem_of_In in Hc.
  split; [tauto|]. split; [tauto|]. split; [eauto|].
  intros c1 l Hc1 Hl Hl1 Hl2. apply Hall. apply elem_of_concat.
  exists (filter (λ lit, ¬ (lit ∈ m ∨ - lit ∈ m)) c1). split.
  - apply list_elem_of_In, in_map_iff. exists c1. by rewrite <- list_elem_of_In.
  - apply list_elem_of_filter. tauto.
Qed.

Lemma first_unassigned_some F m lit :
  first_unassigned F m = Some lit →
  lit ∉ m ∧ - lit ∉ m ∧ ∃ c, c ∈ F ∧ lit ∈ c.
Proof.
  induction F as [|c F IH]; simpl; [done|].
  destruct (filter _ c) as [|x r] eqn:Hf.
  - intros (? & ? & c0 & ? & ?)%IH. split; [done|]. split; [done|].
    exists c0. split; [by right|done].
  - intros [= <-].
    assert (Hx : x ∈ filter (λ lit, (lit ∉ m) ∧ (- lit ∉ m)) c) by (rewrite Hf; left).
    apply list_elem_of_filter in Hx as [[? ?] ?].
    split; [done|]. split; [done|]. exists c. split; [left|done].
Qed.

Lemma first_unassigned_none F m :
  first_unassigned F m = None →
  ∀ c l, c ∈ F → l ∈ c → l ∈ m ∨ - l ∈ m.
Proof.
  induction F as [|c F IH]; simpl; [intros _ c l Hc; inversion Hc|].
  destruct (filter _ c) as [|x r] eqn:Hf; [|done].
  intros Hnone c0 l [->|Hc0]%elem_of_cons Hl; [|by apply (IH Hnone c0)].
  destruct (decide (l ∈ m)) as [|H1]; [by left|].
  destruct (decide (- l ∈ m)) as [|H2]; [by right|].
  assert (Hx : l ∈ filter (λ lit, (lit ∉ m) ∧ (- lit ∉ m)) c)
    by (by apply list_elem_of_filter).
  rewrite Hf in Hx. inversion Hx.
Qed.

Lemma all_true_spec F m :
  all_true F m = true ↔ ∀ c, c ∈ F → ∃ l, l ∈ c ∧ l ∈ m.
Proof.
  unfold all_true. rewrite forallb_forall. split.
  - intros H c Hc%list_elem_of_In. destruct (proj1 (existsb_exists _ _) (H c Hc))
      as (l & Hl%list_elem_of_In & Hm%bool_decide_eq_true). eauto.
  - intros H c Hc%list_elem_of_In. destruct (H c Hc) as (l & Hl & Hm).
    apply existsb_exists. exists l. rewrite <- list_elem_of_In.
    split; [done|]. by apply bool_decide_eq_true.
Qed.

Lemma some_false_spec F m :
  some_false F m = true ↔ ∃ c, c ∈ F ∧ ∀ l, l ∈ c → - l ∈ m.
Proof.
  unfold some_false. rewrite existsb_exists. split.
  - intros (c & Hc%list_elem_of_In & Hall). exists c. split; [done|].
    intros l Hl%list_elem_of_In. rewrite forallb_forall in Hall.
    specialize (Hall l Hl). by apply bool_decide_eq_true in Hall.
  - intros (c & Hc & Hall). exists c. rewrite <- list_elem_of_In. split; [done|].
    apply forallb_forall. intros l Hl%list_elem_of_In.
    apply bool_decide_eq_true. by apply Hall.
Qed.

(** ** Termination: every rule removes an occurrence of a literal *)
Definition occurrences (F : cnf) : nat := length (concat F).

Lemma filter_length_lt {A} (P : A → Prop) `{∀ x, Decision (P x)} (l : list A) x :
  x ∈ l → ¬ P x → (length (filter P l) < length l)%nat.
Proof.
  induction l as [|y l IH]; intros Hin Hx; [inversion Hin|].
  pose proof (length_filter P l).
  apply elem_of_cons in Hin as [<-|Hin].
  - rewrite filter_cons_False by done. simpl. lia.
  - specialize (IH Hin Hx). destruct (decide (P y)).
    + rewrite filter_cons_True by done. simpl. lia.
    + rewrite filter_cons_False by done. simpl. lia.
Qed.

Lemma occurrences_assign_le F l : (occurrences (assign F l) ≤ occurrences F)%nat.
Proof.
  unfold occurrences, assign. induction F as [|c F IH]; simpl; [done|].
  rewrite length_app. destruct (decide (l ∉ c)).
  - rewrite filter_cons_True by done. simpl. rewrite length_app.
    pose proof (length_filter (λ x, x ≠ - l) c). lia.
  - rewrite filter_cons_False by done. lia.
Qed.

Lemma occurrences_assign_lt F l c x :
  c ∈ F → x ∈ c → x = l ∨ x = - l →
  (occurrences (assign F l) < occurrences F)%nat.
Proof.
  intros Hc Hx Hcase. induction F as [|c0 F IH]; [inversion Hc|].
  pose proof (occurrences_assign_le F l) as Hle.
  unfold occurrences, assign in *. simpl. rewrite length_app.
  apply elem_of_cons in Hc as [<-|Hc].
  - destruct (decide (l ∉ c)) as [Hout|Hin].
    + rewrite filter_cons_True by done. simpl. rewrite length_app.
      assert (length (filter (λ x, x ≠ - l) c) < length c)%nat; [|lia].
      apply (filter_length_lt _ c x); [done|].
      destruct Hcase as [->| ->]; [done|tauto].
    + rewrite filter_cons_False by done.
      destruct c; [inversion Hx|simpl; lia].
  - specialize (IH Hc). destruct (decide (l ∉ c0)).
    + rewrite filter_cons_True by done. simpl. rewrite length_app.
      pose proof (length_filter (λ x, x ≠ - l) c0). lia.
    + rewrite filter_cons_False by done. lia.
Qed.

Lemma dpll_rec_enough_fuel n F m :
  (occurrences F < n)%nat → ∃ r, dpll_rec n F m = Some r.
Proof.
  revert F m. induction n as [|n IH]; intros F m Hlt; [lia|]. simpl.
  destruct (all_true F m); [eauto|].
  destruct (some_false F m); [eauto|].
  destruct (unit_clause F m) as [u|] eqn:Hu.
  { rewrite simplify_literal. apply IH.
    apply unit_clause_spec in Hu as (_ & _ & c & Hc & Hf).
    assert (Hin : u ∈ c).
    { assert (Hx : u ∈ filter (λ lit, - lit ∉ m) c) by (rewrite Hf; left).
      by apply list_elem_of_filter in Hx as [_ ?]. }
    pose proof (occurrences_assign_lt F u c u Hc Hin (or_introl eq_refl)). lia. }
  destruct (pure_literal F m) as [p|] eqn:Hp.
  { rewrite simplify_literal. apply IH.
    apply pure_literal_spec in Hp as (_ & _ & (c & Hc & Hin) & _).
    pose proof (occurrences_assign_lt F p c p Hc Hin (or_introl eq_refl)). lia. }
  destruct (first_unassigned F m) as [lit|] eqn:Hl; [|eauto].
  apply first_unassigned_some in Hl as (_ & _ & c & Hc & Hin).
  rewrite !simplify_assign.
  assert (H1 : (occurrences (assign F (Z.abs lit)) < n)%nat).
  { assert (occurrences (assign F (Z.abs lit)) < occurrences F)%nat; [|lia].
    apply (occurrences_assign_lt F _ c lit); [done..|lia]. }
  assert (H2 : (occurrences (assign F (- Z.abs lit)) < n)%nat).
  { assert (occurrences (assign F (- Z.abs lit)) < occurrences F)%nat; [|lia].
    apply (occurrences_assign_lt F _ c lit); [done..|lia]. }
  destruct (IH _ (m ∪ {[Z.abs lit]}) H1) as [[res|] ->]; [eauto|].
  apply IH. done.
Qed.

Lemma dpll_rec_fuel_mono n k F m r :
  dpll_rec n F m = Some r → (n ≤ k)%nat → dpll_rec k F m = Some r.
Proof.
  revert k F m r. induction n as [|n IH]; intros k F m r Hn Hle; [done|].
  destruct k as [|k]; [lia|]. simpl in *.
  destruct (all_true F m); [done|].
  destruct (some_false F m); [done|].
  destruct (unit_clause F m); [apply IH; [done|lia]|].
  destruct (pure_literal F m); [apply IH; [done|lia]|].
  destruct (first_unassigned F m); [|done].
  destruct (dpll_rec n (simplify F (Z.abs z) true) _) as [[res|]|] eqn:Hfirst; [| |done].
  - rewrite (IH k _ _ _ Hfirst) by lia. done.
  - rewrite (IH k _ _ _ Hfirst) by lia. apply IH; [done|lia].
Qed.

End DPLLFacts.

(** * Correctness of [dpll_rec] *)
Module DPLLCorrect.
Import DPLL DPLLFacts.

(** No variable is assigned both polarities. *)
Definition consistent (m : gset Z) : Prop :=
  ∀ v, 0 < v → ¬ (v ∈ m ∧ - v ∈ m).

(** No literal of the formula is decided by the model. *)
Definition fresh (F : cnf) (m : gset Z) : Prop :=
  ∀ c l, c ∈ F → l ∈ c → l ∉ m ∧ - l ∉ m.

(** The model satisfies every clause. *)
Definition models (m : gset Z) (F : cnf) : Prop :=
  ∀ c, c ∈ F → ∃ l, l ∈ c ∧ l ∈ m.

Lemma consistent_empty : consistent ∅.
Proof. intros v _ [H _]. set_solver. Qed.

Lemma consistent_add m l :
  consistent m → l ∉ m → - l ∉ m → consistent (m ∪ {[l]}).
Proof.
  intros Hm H1 H2 v Hv [Hp Hn].
  apply elem_of_union in Hp as [Hp|Hp%elem_of_singleton];
    apply elem_of_union in Hn as [Hn|Hn%elem_of_singleton].
  - by apply (Hm v Hv).
  - apply H2. by replace (- l) with v by lia.
  - apply H2. by rewrite <- Hp.
  - lia.
Qed.

Lemma models_assign F l m :
  l ∈ m → models m (assign F l) → models m F.
Proof.
  intros Hl Hm c Hc. destruct (decide (l ∈ c)) as [Hin|Hout]; [eauto|].
  destruct (Hm (filter (λ x, x ≠ - l) c)) as (x & [_ Hx]%list_elem_of_filter & ?).
  { apply elem_of_assign. eauto. }
  eauto.
Qed.

(** ** A returned model is consistent, extends the given one and satisfies
    every clause *)
Lemma dpll_rec_sound n F m m' :
  consistent m → dpll_rec n F m = Some (Some m') →
  consistent m' ∧ m ⊆ m' ∧ models m' F.
Proof.
  revert F m. induction n as [|n IH]; intros F m Hcons; [done|]. simpl.
  destruct (all_true F m) eqn:Hall.
  { intros [= <-]. split; [done|]. split; [done|].
    exact (proj1 (all_true_spec F m) Hall). }
  destruct (some_false F m); [done|].
  assert (Hstep : ∀ l, l ∉ m → - l ∉ m →
     dpll_rec n (assign F l) (m ∪ {[l]}) = Some (Some m') →
     consistent m' ∧ m ⊆ m' ∧ models m' F).
  { intros l H1 H2 Hrun.
    destruct (IH _ _ (consistent_add m l Hcons H1 H2) Hrun) as (Hc' & Hsub & Hmod).
    split; [done|]. split; [set_solver|].
    apply (models_assign F l); [set_solver|done]. }
  destruct (unit_clause F m) as [u|] eqn:Hu.
  { rewrite simplify_literal. apply unit_clause_spec in Hu as (? & ? & _). by apply Hstep. }
  destruct (pure_literal F m) as [p|] eqn:Hp.
  { rewrite simplify_literal. apply pure_literal_spec in Hp as (? & ? & _). by apply Hstep. }
  destruct (first_unassigned F m) as [lit|] eqn:Hl; [|done].
  apply first_unassigned_some in Hl as (H1 & H2 & _).
  rewrite !simplify_assign.
  assert (Hcase : lit = Z.abs lit ∨ lit = - Z.abs lit) by lia.
  destruct (dpll_rec n (assign F (Z.abs lit)) _) as [[res|]|] eqn:Hfirst; [| |done].
  - intros [= ->]. apply (Hstep (Z.abs lit)); [| |done].
    + destruct Hcase as [<-|Heq]; [done|]. by replace (Z.abs lit) with (- lit) by lia.
    + destruct Hcase as [<-|Heq]; [done|]. by replace (- Z.abs lit) with lit by lia.
  - apply (Hstep (- Z.abs lit)).
    + destruct Hcase as [Heq|<-]; [|done]. by replace (- Z.abs lit) with (- lit) by lia.
    + rewrite Z.opp_involutive.
      destruct Hcase as [<-|Heq]; [done|]. by replace (Z.abs lit) with (- lit) by lia.
Qed.

(** A consistent model of a well-formed formula yields a valuation. *)
Lemma models_satisfiable F m : wf F → consistent m → models m F → satisfiable F.
Proof.
  intros Hwf Hcons Hm. exists (λ v, bool_decide (v ∈ m)). intros c Hc.
  destruct (Hm c Hc) as (l & Hl & Hin). exists l. split; [done|].
  pose proof (wf_elem F c l Hwf Hc Hl) as Hl0. unfold lit_true.
  destruct (Z.ltb_spec 0 l).
  - by apply bool_decide_eq_true.
  - apply negb_true_iff, bool_decide_eq_false. intros Hn.
    apply (Hcons (- l)); [lia|]. by rewrite Z.opp_involutive.
Qed.

(** ** The absence of a model is a refutation *)
Lemma assign_wf F l : wf F → wf (assign F l).
Proof.
  rewrite !DPCorrect.wf_forall. intros H c' x (c & Hc & _ & ->)%elem_of_assign
    [_ Hx]%list_elem_of_filter. by apply (H c).
Qed.

Lemma assign_fresh F l m : fresh F m → fresh (assign F l) (m ∪ {[l]}).
Proof.
  intros Hf c' x (c & Hc & Hout & ->)%elem_of_assign [Hne Hx]%list_elem_of_filter.
  destruct (Hf c x Hc Hx) as [H1 H2].
  rewrite !elem_of_union, !elem_of_singleton. split.
  - intros [?| ->]; done.
  - intros [?|Heq]; [done|]. apply Hne. lia.
Qed.

Lemma assign_fsat ρ F l :
  l ≠ 0 → lit_true ρ l = true → fsat ρ F → fsat ρ (assign F l).
Proof.
  intros Hl Ht Hρ c' (c & Hc & Hout & ->)%elem_of_assign.
  destruct (Hρ c Hc) as (x & Hx & Htx). exists x. split; [|done].
  apply list_elem_of_filter. split; [|done]. intros ->.
  rewrite lit_true_opp, Ht in Htx; done.
Qed.

Lemma dpll_rec_complete n F m :
  wf F → fresh F m → dpll_rec n F m = Some None → ¬ satisfiable F.
Proof.
  revert F m. induction n as [|n IH]; intros F m Hwf Hfresh; [done|]. simpl.
  destruct (all_true F m) eqn:Hall; [done|].
  destruct (some_false F m) eqn:Hsome.
  { intros _. apply some_false_spec in Hsome as (c & Hc & Hneg).
    destruct c as [|x c]; [by apply unsat_empty_clause|].
    exfalso. destruct (Hfresh (x :: c) x Hc) as [_ H2]; [left|].
    apply H2, Hneg. left. }
  destruct (unit_clause F m) as [u|] eqn:Hu.
  { rewrite simplify_literal. intros Hrun [ρ Hρ].
    apply unit_clause_spec in Hu as (_ & _ & c & Hc & Hf).
    assert (Hcu : c = [u]).
    { rewrite <- Hf. symmetry. apply filter_id. intros x Hx.
      by destruct (Hfresh c x Hc Hx). }
    subst c. destruct (Hρ _ Hc) as (x & ->%list_elem_of_singleton & Ht).
    apply (IH _ _ (assign_wf F u Hwf) (assign_fresh F u m Hfresh) Hrun).
    exists ρ. apply assign_fsat; [|done..].
    apply (wf_elem F [u]); [done..|left]. }
  destruct (pure_literal F m) as [p|] eqn:Hp.
  { rewrite simplify_literal. intros Hrun [ρ Hρ].
    apply pure_literal_spec in Hp as (_ & _ & (c0 & Hc0 & Hp0) & Hpure).
    assert (Hp1 : p ≠ 0) by (by apply (wf_elem F c0)).
    apply (IH _ _ (assign_wf F p Hwf) (assign_fresh F p m Hfresh) Hrun).
    exists (force ρ p). apply assign_fsat; [done|by apply force_true|].
    intros c Hc. destruct (decide (p ∈ c)) as [Hin|Hout].
    - exists p. split; [done|]. by apply force_true.
    - destruct (Hρ c Hc) as (x & Hx & Ht). exists x. split; [done|].
      rewrite force_other; [done|]. intros Habs. apply Hout.
      destruct (Hfresh c x Hc Hx). by rewrite <- (Hpure c x Hc Hx). }
  destruct (first_unassigned F m) as [lit|] eqn:Hl.
  - apply first_unassigned_some in Hl as (_ & _ & c & Hc & Hin).
    pose proof (wf_elem F c lit Hwf Hc Hin) as Hl0.
    rewrite !simplify_assign.
    destruct (dpll_rec n (assign F (Z.abs lit)) _) as [[res|]|] eqn:Hfirst; [done| |done].
    intros Hsecond [ρ Hρ].
    destruct (true_literal_of_abs ρ lit Hl0) as [Ht|Ht].
    + apply (IH _ _ (assign_wf F _ Hwf) (assign_fresh F _ m Hfresh) Hfirst).
      exists ρ. apply assign_fsat; [lia|done..].
    + apply (IH _ _ (assign_wf F _ Hwf) (assign_fresh F _ m Hfresh) Hsecond).
      exists ρ. apply assign_fsat; [lia|done..].
  - intros _ _.
    assert (Hnot : ¬ (∀ c, c ∈ F → ∃ l, l ∈ c ∧ l ∈ m)).
    { intros H. apply all_true_spec in H. congruence. }
    apply Hnot. intros c Hc. exfalso.
    destruct c as [|x c].
    + assert (some_false F m = true); [|congruence].
      apply some_false_spec. exists []. split; [done|]. intros l Hl'. inversion Hl'.
    + destruct (Hfresh (x :: c) x Hc) as [H1 H2]; [left|].
      destruct (first_unassigned_none F m Hl (x :: c) x Hc); [left|done..].
Qed.

(** ** The answer of the search is the satisfiability of the formula *)
Lemma dpll_rec_correct n F r :
  wf F → dpll_rec n F ∅ = Some r → (is_Some r ↔ satisfiable F).
Proof.
  intros Hwf Hrun. destruct r as [m'|].
  - split; [intros _|by eauto].
    destruct (dpll_rec_sound n F ∅ m' consistent_empty Hrun) as (Hc & _ & Hm).
    by apply (models_satisfiable F m').
  - split; [by intros [? ?]|]. intros Hs. exfalso.
    apply (dpll_rec_complete n F ∅ Hwf); [|done..].
    intros c l _ _. set_solver.
Qed.

End DPLLCorrect.

(** * Facts about resolution.py *)
Module ResolutionFacts.
Import Resolution.

(** An iteration order visits exactly the members of the set it iterates;
    the one of the working set visits each clause once. *)
Definition lit_order_ok (lit_order : fclause → list Z) : Prop :=
  ∀ c x, x ∈ lit_order c ↔ x ∈ c.

Definition clause_order_ok (clause_order : clause_set → list fclause) : Prop :=
  ∀ W, NoDup (clause_order W) ∧ ∀ c, c ∈ clause_order W ↔ c ∈ W.

Lemma elements_lit_order_ok : lit_order_ok elements.
Proof. intros c x. apply elem_of_elements. Qed.

Lemma elements_clause_order_ok : clause_order_ok elements.
Proof. intros W. split; [apply NoDup_elements|]. intros c. apply elem_of_elements. Qed.

(** [c1] holds a literal whose negation is in [c2]. *)
Definition clash (c1 c2 : fclause) : Prop := ∃ l, l ∈ c1 ∧ - l ∈ c2.

(** [r] is what the engine forms from [c1] and [c2] for some choice of the
    complementary literal. *)
Definition resolvent_of (c1 c2 r : fclause) : Prop :=
  ∃ l, l ∈ c1 ∧ - l ∈ c2 ∧ r = (c1 ∪ c2) ∖ {[l; - l]}.

Lemma clash_sym c1 c2 : clash c1 c2 → clash c2 c1.
Proof.
  intros (l & ? & ?). exists (- l). by rewrite Z.opp_involutive.
Qed.

Lemma resolvent_of_sym c1 c2 r : resolvent_of c1 c2 r → resolvent_of c2 c1 r.
Proof.
  intros (l & ? & ? & ->). exists (- l). rewrite Z.opp_involutive.
  split; [done|]. split; [done|]. set_solver.
Qed.

(** When some choice of the literal gives the empty clause, every choice
    does. *)
Lemma resolvent_of_empty c1 c2 r :
  resolvent_of c1 c2 ∅ → resolvent_of c1 c2 r → r = ∅.
Proof.
  intros (l & Hl & Hn & Hempty) (l' & Hl' & Hn' & ->).
  assert (Hsub : ∀ x, x ∈ c1 ∪ c2 → x = l ∨ x = - l).
  { intros x Hx. destruct (decide (x = l)) as [|H1]; [by left|].
    destruct (decide (x = - l)) as [|H2]; [by right|].
    exfalso. assert (x ∈ (∅ : gset Z)); [|set_solver].
    rewrite Hempty. set_solver. }
  apply set_eq. intros x. split; [|set_solver].
  intros [Hx Hout]%elem_of_difference. exfalso. apply Hout.
  assert (Hl1 : l' = l ∨ l' = - l) by (apply Hsub; set_solver).
  destruct (Hsub x Hx) as [->| ->]; destruct Hl1 as [->| ->];
    rewrite ?Z.opp_involutive; set_solver.
Qed.

Section Engine.
Variable lit_order : fclause → list Z.
Variable clause_order : clause_set → list fclause.

  (** ** [resolve_pair] *)
Lemma resolve_scan_none lits c1 c2 :
    resolve_scan lits c1 c2 = None ↔ ∀ l, l ∈ lits → - l ∉ c2.
  Proof.
    induction lits as [|l lits IH]; simpl.
    - split; [|done]. intros _ l Hl. inversion Hl.
    - destruct (decide (- l ∈ c2)) as [Hin|Hout].
      + split; [done|]. intros H. exfalso. apply (H l); [left|done].
      + rewrite IH. split.
        * intros H x [->|?]%elem_of_cons; auto.
        * intros H x Hx. apply H. by right.
  Qed.

Lemma resolve_scan_some lits c1 c2 r :
    resolve_scan lits c1 c2 = Some r →
    ∃ l, l ∈ lits ∧ - l ∈ c2 ∧ r = (c1 ∪ c2) ∖ {[l; - l]}.
  Proof.
    induction lits as [|l lits IH]; simpl; [done|].
    destruct (decide (- l ∈ c2)) as [Hin|Hout].
    - intros [= <-]. exists l. split; [left|done].
    - intros (l' & ? & ? & ?)%IH. exists l'. split; [by right|done].
  Qed.

Hypothesis lit_order_spec : lit_order_ok lit_order.

Lemma resolve_pair_none c1 c2 :
    resolve_pair lit_order c1 c2 = None ↔ ¬ clash c1 c2.
  Proof.
    unfold resolve_pair. rewrite resolve_scan_none. split.
    - intros H (l & Hl & Hn). apply (H l); [by apply lit_order_spec|done].
    - intros H l Hl Hn. apply H. exists l. split; [by apply lit_order_spec|done].
  Qed.

Lemma resolve_pair_some c1 c2 r :
    resolve_pair lit_order c1 c2 = Some r → resolvent_of c1 c2 r.
  Proof.
    intros (l & Hl & ? & ?)%resolve_scan_some. exists l.
    split; [by apply lit_order_spec|done].
  Qed.

Lemma resolve_pair_clash c1 c2 :
    clash c1 c2 → ∃ r, resolve_pair lit_order c1 c2 = Some r.
  Proof.
    intros Hc. destruct (resolve_pair lit_order c1 c2) as [r|] eqn:Hr; [eauto|].
    by apply resolve_pair_none in Hr.
  Qed.

  (** ** One pass over the pairs *)

  (** [x] comes before [y] in the list. *)
Definition before {A} (l : list A) (x y : A) : Prop :=
    ∃ l1 l2, l = l1 ++ x :: l2 ∧ y ∈ l2.

Lemma before_cons {A} (a : A) l x y :
    before (a :: l) x y ↔ (x = a ∧ y ∈ l) ∨ before l x y.
  Proof.
    split.
    - intros ([|b l1] & l2 & Heq & Hy); simpl in Heq; injection Heq as -> ->.
      + by left.
      + right. by exists l1, l2.
    - intros [[-> Hy]|(l1 & l2 & -> & Hy)].
      + by exists [], l.
      + by exists (a :: l1), l2.
  Qed.

Lemma before_nil {A} (x y : A) : ¬ before [] x y.
  Proof. intros ([|??] & ? & ? & _); done. Qed.

Lemma before_elem {A} (l : list A) x y : before l x y → x ∈ l ∧ y ∈ l.
  Proof.
    intros (l1 & l2 & -> & Hy). rewrite !elem_of_app, !elem_of_cons. tauto.
  Qed.

Lemma before_NoDup {A} (l : list A) x y : NoDup l → before l x y → x ≠ y.
  Proof.
    intros Hnd (l1 & l2 & -> & Hy) ->.
    apply NoDup_app in Hnd as (_ & _ & Hnd). apply NoDup_cons in Hnd as [Hn _]. done.
  Qed.

Lemma before_total {A} (l : list A) x y :
    x ∈ l → y ∈ l → x ≠ y → before l x y ∨ before l y x.
  Proof.
    induction l as [|a l IH]; intros Hx Hy Hne; [inversion Hx|].
    rewrite !before_cons.
    apply elem_of_cons in Hx as [->|Hx]; apply elem_of_cons in Hy as [->|Hy].
    - done.
    - left. by left.
    - right. by left.
    - destruct (IH Hx Hy Hne); [left|right]; by right.
  Qed.

Lemma inner_loop_none ci later new :
    inner_loop lit_order ci later new = None ↔
    ∃ cj, cj ∈ later ∧ resolve_pair lit_order ci cj = Some ∅.
  Proof.
    revert new. induction later as [|cj later IH]; simpl; intros new.
    - split; [done|]. intros (? & H & _). inversion H.
    - destruct (resolve_pair lit_order ci cj) as [r|] eqn:Hr.
      + destruct (decide (r = ∅)) as [->|Hne].
        * split; [|done]. intros _. exists cj. split; [left|done].
        * rewrite IH. split.
          -- intros (c & ? & ?). exists c. split; [by right|done].
          -- intros (c & [->|?]%elem_of_cons & Hc); [congruence|eauto].
      + rewrite IH. split.
        * intros (c & ? & ?). exists c. split; [by right|done].
        * intros (c & [->|?]%elem_of_cons & Hc); [congruence|eauto].
  Qed.

Lemma inner_loop_some ci later new new' :
    inner_loop lit_order ci later new = Some new' →
    ∀ r, r ∈ new' ↔
      r ∈ new ∨ ∃ cj, cj ∈ later ∧ resolve_pair lit_order ci cj = Some r.
  Proof.
    revert new. induction later as [|cj later IH]; simpl; intros new.
    - intros [= <-] r. split; [auto|]. intros [?|(? & H & _)]; [done|inversion H].
    - destruct (resolve_pair lit_order ci cj) as [r0|] eqn:Hr.
      + destruct (decide (r0 = ∅)) as [->|Hne]; [done|].
        intros Hrun r. rewrite (IH _ Hrun r), elem_of_union, elem_of_singleton. split.
        * intros [[?| ->]|(c & ? & ?)]; [by left| |].
          -- right. exists cj. split; [left|done].
          -- right. exists c. split; [by right|done].
        * intros [?|(c & [->|?]%elem_of_cons & Hc)]; [by left; left| |].
          -- left. right. congruence.
          -- right. eauto.
      + intros Hrun r. rewrite (IH _ Hrun r). split.
        * intros [?|(c & ? & ?)]; [by left|]. right. exists c. split; [by right|done].
        * intros [?|(c & [->|?]%elem_of_cons & Hc)]; [by left|congruence|]. right. eauto.
  Qed.

Lemma outer_loop_none pairs new :
    outer_loop lit_order pairs new = None ↔
    ∃ ci cj, before pairs ci cj ∧ resolve_pair lit_order ci cj = Some ∅.
  Proof.
    revert new. induction pairs as [|c pairs IH]; simpl; intros new.
    - split; [done|]. intros (? & ? & H & _). by apply before_nil in H.
    - destruct (inner_loop lit_order c pairs new) as [new'|] eqn:Hin.
      + rewrite IH. split.
        * intros (ci & cj & ? & ?). exists ci, cj. rewrite before_cons. auto.
        * intros (ci & cj & [[-> Hcj]|?]%before_cons & Hr); [|eauto].
          exfalso. assert (inner_loop lit_order c pairs new = None); [|congruence].
          apply inner_loop_none. eauto.
      + split; [|done]. intros _.
        apply inner_loop_none in Hin as (cj & ? & ?).
        exists c, cj. rewrite before_cons. auto.
  Qed.

Lemma outer_loop_some pairs new new' :
    outer_loop lit_order pairs new = Some new' →
    ∀ r, r ∈ new' ↔
      r ∈ new ∨ ∃ ci cj, before pairs ci cj ∧ resolve_pair lit_order ci cj = Some r.
  Proof.
    revert new. induction pairs as [|c pairs IH]; simpl; intros new.
    - intros [= <-] r. split; [auto|].
      intros [?|(? & ? & H & _)]; [done|by apply before_nil in H].
    - destruct (inner_loop lit_order c pairs new) as [mid|] eqn:Hin; [|done].
      intros Hrun r. rewrite (IH _ Hrun r), (inner_loop_some _ _ _ _ Hin r). split.
      + intros [[?|(cj & ? & ?)]|(ci & cj & ? & ?)]; [by left| |].
        * right. exists c, cj. rewrite before_cons. auto.
        * right. exists ci, cj. rewrite before_cons. auto.
      + intros [?|(ci & cj & [[-> ?]|?]%before_cons & ?)]; [by left; left| |].
        * left. right. eauto.
        * right. eauto.
  Qed.

Hypothesis clause_order_spec : clause_order_ok clause_order.

  (** The pass answers [False] exactly when two distinct clauses of the
      working set resolve to the empty clause. *)
Lemma round_none W :
    round lit_order clause_order W = None ↔
    ∃ c d, c ∈ W ∧ d ∈ W ∧ c ≠ d ∧ resolvent_of c d ∅.
  Proof.
    unfold round. rewrite outer_loop_none.
    destruct (clause_order_spec W) as [Hnd Hmem]. split.
    - intros (ci & cj & Hb & Hr). exists ci, cj.
      destruct (before_elem _ _ _ Hb) as [?%Hmem ?%Hmem].
      split; [done|]. split; [done|]. split; [by apply (before_NoDup _ _ _ Hnd)|].
      by apply resolve_pair_some.
    - intros (c & d & Hc & Hd & Hne & Hres).
      destruct (before_total (clause_order W) c d) as [Hb|Hb];
        [by apply Hmem|by apply Hmem|done| |].
      + exists c, d. split; [done|].
        destruct (resolve_pair_clash c d) as [r Hr].
        { destruct Hres as (l & ? & ? & _). by exists l. }
        rewrite Hr. f_equal.
        apply (resolvent_of_empty c d); [done|by apply resolve_pair_some].
      + exists d, c. split; [done|]. apply resolvent_of_sym in Hres.
        destruct (resolve_pair_clash d c) as [r Hr].
        { destruct Hres as (l & ? & ? & _). by exists l. }
        rewrite Hr. f_equal.
        apply (resolvent_of_empty d c); [done|by apply resolve_pair_some].
  Qed.

  (** Otherwise it collects one non-empty resolvent for every pair of
      distinct clauses that clash. *)
Lemma round_some W new :
    round lit_order clause_order W = Some new →
    (∀ r, r ∈ new →
       r ≠ ∅ ∧ ∃ c d, c ∈ W ∧ d ∈ W ∧ c ≠ d ∧ resolvent_of c d r) ∧
    (∀ c d, c ∈ W → d ∈ W → c ≠ d → clash c d →
       ∃ r, resolvent_of c d r ∧ r ∈ new).
  Proof.
    intros Hrun. pose proof (outer_loop_some _ _ _ Hrun) as Hnew.
    destruct (clause_order_spec W) as [Hnd Hmem]. split.
    - intros r [Hr|(ci & cj & Hb & Hr)]%Hnew; [set_solver|].
      destruct (before_elem _ _ _ Hb) as [Hci%Hmem Hcj%Hmem].
      pose proof (before_NoDup _ _ _ Hnd Hb) as Hne.
      pose proof (resolve_pair_some _ _ _ Hr) as Hres. split.
      + intros ->. assert (round lit_order clause_order W = None); [|congruence].
        apply round_none. exists ci, cj. done.
      + exists ci, cj. done.
    - intros c d Hc Hd Hne Hclash.
      destruct (before_total (clause_order W) c d) as [Hb|Hb];
        [by apply Hmem|by apply Hmem|done| |].
      + destruct (resolve_pair_clash c d Hclash) as [r Hr]. exists r.
        split; [by apply resolve_pair_some|]. apply Hnew. right. eauto.
      + destruct (resolve_pair_clash d c (clash_sym _ _ Hclash)) as [r Hr]. exists r.
        split; [by apply resolvent_of_sym, resolve_pair_some|].
        apply Hnew. right. eauto.
  Qed.

End Engine.

End ResolutionFacts.

(** * Termination of the saturation loop *)
Module ResolutionTermination.
Import Resolution ResolutionFacts.

(** All subsets of the set of the members of a list. *)
Fixpoint subsets (l : list Z) : list fclause :=
  match l with
  | [] => [∅]
  | x :: l => subsets l ++ map (λ s, {[x]} ∪ s) (subsets l)
  end.

Lemma elem_of_subsets l (c : fclause) : c ⊆ list_to_set l → c ∈ subsets l.
Proof.
  revert c. induction l as [|x l IH]; simpl; intros c Hc.
  - apply list_elem_of_singleton. set_solver.
  - apply elem_of_app. destruct (decide (x ∈ c)) as [Hin|Hout].
    + right. apply list_elem_of_In, in_map_iff. exists (c ∖ {[x]}). split.
      * apply set_eq. intros y. destruct (decide (y = x)); set_solver.
      * apply list_elem_of_In, IH. set_solver.
    + left. apply IH. set_solver.
Qed.

(** Every clause of the working set draws its literals from [L]. *)
Definition bounded (W : clause_set) (L : fclause) : Prop := ∀ c, c ∈ W → c ⊆ L.

Definition all_clauses (L : fclause) : clause_set := list_to_set (subsets (elements L)).

Lemma bounded_all_clauses W L : bounded W L → W ⊆ all_clauses L.
Proof.
  intros Hb c Hc. apply elem_of_list_to_set, elem_of_subsets.
  intros x Hx. apply elem_of_list_to_set, elem_of_elements. by apply (Hb c).
Qed.

Lemma resolvent_of_subseteq c d r : resolvent_of c d r → r ⊆ c ∪ d.
Proof. intros (l & _ & _ & ->). set_solver. Qed.

Section Engine.
Variable lit_order : fclause → list Z.
Variable clause_order : clause_set → list fclause.
Hypothesis lit_order_spec : lit_order_ok lit_order.
Hypothesis clause_order_spec : clause_order_ok clause_order.

Lemma round_bounded W new L :
    bounded W L → round lit_order clause_order W = Some new → bounded (W ∪ new) L.
  Proof.
    intros Hb Hrun c [Hc|Hc]%elem_of_union; [by apply Hb|].
    destruct (round_some _ _ lit_order_spec clause_order_spec W new Hrun) as [Hnew _].
    destruct (Hnew c Hc) as (_ & c1 & c2 & H1 & H2 & _ & Hres%resolvent_of_subseteq).
    pose proof (Hb c1 H1). pose proof (Hb c2 H2). set_solver.
  Qed.

Lemma saturate_enough_fuel L n W :
    bounded W L → (size (all_clauses L) - size W < n)%nat →
    ∃ b, saturate lit_order clause_order n W = Some b.
  Proof.
    revert W. induction n as [|n IH]; intros W Hb Hlt; [lia|]. simpl.
    destruct (round lit_order clause_order W) as [new|] eqn:Hround; [|eauto].
    destruct (decide (new ⊆ W)) as [Hsub|Hnsub]; [eauto|].
    pose proof (round_bounded W new L Hb Hround) as Hb'.
    apply IH; [done|].
    assert (Hstrict : W ⊂ W ∪ new) by set_solver.
    apply subset_size in Hstrict.
    pose proof (subseteq_size _ _ (bounded_all_clauses _ _ Hb')). lia.
  Qed.

Lemma saturate_fuel_mono n k W b :
    saturate lit_order clause_order n W = Some b → (n ≤ k)%nat →
    saturate lit_order clause_order k W = Some b.
  Proof.
    revert k W. induction n as [|n IH]; intros k W Hn Hle; [done|].
    destruct k as [|k]; [lia|]. simpl in *.
    destruct (round lit_order clause_order W); [|done].
    destruct (decide (_ ⊆ W)); [done|]. apply IH; [done|lia].
  Qed.

  (** The engine answers on every input. *)
Lemma resolution_total F :
    ∃ n b, resolution lit_order clause_order n F = Some b.
  Proof.
    set (L := ⋃ (elements (initial F)) : fclause).
    assert (Hb : bounded (initial F) L).
    { intros c Hc x Hx. unfold L. apply elem_of_union_list. exists c.
      split; [by apply elem_of_elements|done]. }
    exists (S (size (all_clauses L) - size (initial F))).
    apply (saturate_enough_fuel L); [done|lia].
  Qed.
End Engine.

End ResolutionTermination.

(** * The resolvent formed by [resolve_pair] *)
Module ResolvePair.
Import Resolution ResolutionFacts.

(** C9.  For every pair of clauses, under any iteration order of the first
    clause: [resolve_pair c1 c2] is [None] exactly when no literal of [c1] has
    its negation in [c2]; otherwise it is [(c1 ∪ c2) ∖ {l, -l}] for a literal
    [l] of [c1] whose negation is in [c2], so every other literal of either
    clause is kept and both [l] and [-l] are dropped from both clauses.  The
    resolvent of [{1,2}] and [{-1,-2}] is a tautology, and resolving [{1}]
    with [{1,-1,3}] also drops the [1] of the second clause. *)
Theorem resolve_pair_spec (lit_order : fclause → list Z) (c1 c2 : fclause) :
  lit_order_ok lit_order →
  (resolve_pair lit_order c1 c2 = None ↔ ∀ l, l ∈ c1 → - l ∉ c2) ∧
  (∀ r, resolve_pair lit_order c1 c2 = Some r →
     ∃ l, l ∈ c1 ∧ - l ∈ c2 ∧ r = (c1 ∪ c2) ∖ {[l; - l]} ∧
       ∀ x, x ∈ r ↔ (x ∈ c1 ∨ x ∈ c2) ∧ x ≠ l ∧ x ≠ - l) ∧
  (∃ r, resolve_pair lit_order {[1; 2]} {[-1; -2]} = Some r ∧
        ∃ x, x ∈ r ∧ - x ∈ r) ∧
  resolve_pair lit_order {[1]} {[1; -1; 3]} = Some {[3]}.
Proof.
  intros Hlo. split; [|split; [|split]].
  - rewrite (resolve_pair_none _ Hlo). split.
    + intros H l Hl Hn. apply H. by exists l.
    + intros H (l & Hl & Hn). by apply (H l).
  - intros r (l & Hl & Hn & ->)%(resolve_pair_some _ Hlo). exists l.
    split; [done|]. split; [done|]. split; [done|]. intros x. set_solver.
  - destruct (resolve_pair_clash _ Hlo {[1; 2]} {[-1; -2]}) as [r Hr].
    { exists 1. set_solver. }
    exists r. split; [done|].
    apply (resolve_pair_some _ Hlo) in Hr as (l & Hl & _ & ->).
    assert (l = 1 ∨ l = 2) as [->| ->] by set_solver.
    + exists 2. split; apply elem_of_difference; split; set_solver.
    + exists 1. split; apply elem_of_difference; split; set_solver.
  - destruct (resolve_pair_clash _ Hlo {[1]} {[1; -1; 3]}) as [r Hr].
    { exists 1. set_solver. }
    rewrite Hr. f_equal.
    apply (resolve_pair_some _ Hlo) in Hr as (l & Hl & _ & ->).
    assert (l = 1) as -> by set_solver.
    apply set_eq. intros x. rewrite elem_of_difference, !elem_of_union, !elem_of_singleton. lia.
Qed.

Lemma resolve_pair_spec_witness :
  lit_order_ok elements ∧
  (resolve_pair elements {[1; 3]} {[2; -3]} = None ↔
     ∀ l : Z, l ∈ ({[1; 3]} : fclause) → - l ∉ ({[2; -3]} : fclause)) ∧
  resolve_pair elements {[1]} {[1; -1; 3]} = Some {[3]}.
Proof.
  split; [exact elements_lit_order_ok|].
  pose proof (resolve_pair_spec elements {[1; 3]} {[2; -3]} elements_lit_order_ok)
    as (H1 & _ & _ & H4).
  split; [exact H1|exact H4].
Defined.

End ResolvePair.

(** * The working set of the saturation loop *)
Module WorkingSet.
Import Resolution ResolutionFacts.

Section Engine.
Variable lit_order : fclause → list Z.
Variable clause_order : clause_set → list fclause.

  (** The value of [clauses] at the start of pass number [n] of the
      [while True] loop ([None] when the loop has returned before). *)
Fixpoint working_set (n : nat) (clauses : clause_set) : option clause_set :=
    match n with
    | O => Some clauses
    | S n =>
        match round lit_order clause_order clauses with
        | None => None
        | Some new =>
            if decide (new ⊆ clauses) then None
            else working_set n (clauses ∪ new)
        end
    end.

  (** Running the loop from the start is running it from any later pass. *)
Lemma saturate_from_pass n k W W' :
    working_set n W = Some W' →
    saturate lit_order clause_order (n + k) W = saturate lit_order clause_order k W'.
  Proof.
    revert W. induction n as [|n IH]; simpl; intros W; [by intros [= ->]|].
    destruct (round lit_order clause_order W) as [new|]; [|done].
    destruct (decide (new ⊆ W)); [done|]. apply IH.
  Qed.

Lemma working_set_grows n W W' : working_set n W = Some W' → W ⊆ W'.
  Proof.
    revert W. induction n as [|n IH]; simpl; intros W; [by intros [= ->]|].
    destruct (round lit_order clause_order W) as [new|]; [|done].
    destruct (decide (new ⊆ W)); [done|].
    intros Hrun%IH. set_solver.
  Qed.

Lemma working_set_add n k W :
    working_set (n + k) W =
    match working_set n W with Some W' => working_set k W' | None => None end.
  Proof.
    revert W. induction n as [|n IH]; simpl; intros W; [done|].
    destruct (round lit_order clause_order W) as [new|]; [|done].
    destruct (decide (new ⊆ W)); [done|]. apply IH.
  Qed.

Lemma elem_of_initial F c : c ∈ F → list_to_set c ∈ initial F.
  Proof.
    intros Hc. apply elem_of_list_to_set, list_elem_of_In, in_map_iff.
    exists c. by rewrite <- list_elem_of_In.
  Qed.

  (** C10.  At the start of every pass the working set holds every clause of
      the input (as a set of literals), and whatever it holds at the start of
      one pass it still holds at the start of every later pass. *)
Theorem working_set_monotone (F : cnf) (n : nat) (W : clause_set) :
    working_set n (initial F) = Some W →
    (∀ c, c ∈ F → list_to_set c ∈ W) ∧
    (∀ k W', working_set (n + k) (initial F) = Some W' → W ⊆ W').
  Proof.
    intros Hn. split.
    - intros c Hc. apply (working_set_grows _ _ _ Hn). by apply elem_of_initial.
    - intros k W'. rewrite working_set_add, Hn. apply working_set_grows.
  Qed.
End Engine.

Lemma working_set_two_passes :
  is_Some (working_set elements elements 2 (initial [[1; 2]; [-1; -2]])).
Proof. apply (bool_decide_unpack _). vm_compute. exact I. Qed.

Lemma working_set_monotone_witness :
  ∃ W, working_set elements elements 2 (initial [[1; 2]; [-1; -2]]) = Some W ∧
    (∀ c : clause, c ∈ [[1; 2]; [-1; -2]] → list_to_set c ∈ W).
Proof.
  destruct working_set_two_passes as [W H]. exists W. split; [exact H|].
  exact (proj1 (working_set_monotone elements elements _ 2 W H)).
Defined.

End WorkingSet.

(** * The recursion of [dp_eliminate] *)
Module DPSteps.
Import DP DPFacts DPTermination.

(** C7.  When [dp_eliminate] reaches its unit-propagation step with the unit
    literal [u]: it recurses on [unit_propagate clauses u]; no clause of that
    formula holds [u] or [-u]; when no clause is emptied the formula is the
    input without the clauses that hold [u], and with [-u] taken out of the
    others; and when taking [-u] out of a clause leaves it empty, the call
    answers [False]. *)
Theorem dp_unit_propagation (F : cnf) (u : Z) (fuel : nat) :
  existsb (λ c : clause, Nat.eqb (length c) 0) F = false →
  Nat.eqb (length F) 0 = false →
  find_pure_literal F = None →
  find_unit_clause F = Some u →
  dp_eliminate (S fuel) F = dp_eliminate fuel (unit_propagate F u) ∧
  (∀ c, c ∈ unit_propagate F u → u ∉ c ∧ - u ∉ c) ∧
  ((∀ c, c ∈ F → u ∉ c → filter (λ lit, lit ≠ - u) c ≠ []) →
     unit_propagate F u =
       map (filter (λ lit, lit ≠ - u)) (filter (λ c, u ∉ c) F)) ∧
  ((∃ c, c ∈ F ∧ u ∉ c ∧ filter (λ lit, lit ≠ - u) c = []) →
     dp_eliminate (S (S fuel)) F = Some false).
Proof.
  intros Hempty Hnil Hpure Hunit.
  assert (Hstep : ∀ n, dp_eliminate (S n) F = dp_eliminate n (unit_propagate F u)).
  { intros n. simpl. by rewrite Hempty, Hnil, Hpure, Hunit. }
  split; [apply Hstep|].
  destruct (unit_propagate_spec F u) as [[Heq (c0 & Hc0 & Hu0 & Hn0 & Hf0)]|[Heq Hall]].
  - split; [|split].
    + rewrite Heq. intros c ->%list_elem_of_singleton. split; inversion 1.
    + intros H. exfalso. by apply (H c0).
    + intros _. rewrite Hstep, Heq. done.
  - split; [|split].
    + rewrite Heq. intros c' (c & <- & [Hout Hc]%list_elem_of_In%list_elem_of_filter)%list_elem_of_In%in_map_iff.
      split.
      * intros [_ ?]%list_elem_of_filter. done.
      * intros [? _]%list_elem_of_filter. done.
    + done.
    + intros (c & Hc & Hout & Hf). exfalso.
      destruct (Hall c Hc Hout) as [?|Hn]; [done|].
      (* an empty clause of the input would have been caught first *)
      assert (c = []) as ->.
      { rewrite <- Hf. symmetry. apply filter_id. intros x Hx ->. done. }
      assert (existsb (λ c : clause, Nat.eqb (length c) 0) F = true); [|congruence].
      apply existsb_exists. exists []. by rewrite <- list_elem_of_In.
Qed.

Lemma dp_unit_propagation_witness :
  unit_propagate [[1]; [-1; 2]; [-1; -2]] 1 = [[2]; [-2]] ∧
  dp_eliminate 2 [[1]; [-1]] = Some false.
Proof.
  split.
  - pose proof (dp_unit_propagation [[1]; [-1; 2]; [-1; -2]] 1 0
      eq_refl eq_refl eq_refl eq_refl) as (_ & _ & H & _).
    apply H. intros c Hc Hout.
    repeat (apply elem_of_cons in Hc as [->|Hc]); try (by vm_compute);
      [exfalso; apply Hout; left..|inversion Hc].
  - pose proof (dp_unit_propagation [[1]; [-1]] 1 0
      eq_refl eq_refl eq_refl eq_refl) as (_ & _ & _ & H).
    apply H. exists [-1]. split; [right; left|]. split; [|reflexivity].
    intros [H1|H1]%elem_of_cons; [discriminate|inversion H1].
Defined.

End DPSteps.

(** * Totality of [dp_eliminate] *)
Module DPTotal.
Import DP DPFacts DPTermination.

(** The formula on which the elimination step stops removing the pivot. *)
Definition pivot_kept : cnf := [[1; -1; 2]; [-1; 3]; [-2; -3]].

(** On [pivot_kept] the elimination step is the one taken, with pivot [1], and
    the formula it recurses on has the same active variables as its caller:
    the first clause holds both [1] and [-1], and only [1] is taken out of it
    when it is resolved as the positive clause. *)
Lemma eliminate_keeps_pivot :
  ¬ (∀ F lit0,
       existsb (λ c : clause, Nat.eqb (length c) 0) F = false →
       find_pure_literal F = None →
       find_unit_clause F = None →
       first_literal F = Some lit0 →
       vars (eliminate (Z.abs lit0) F) ⊂ vars F).
Proof.
  intros H.
  destruct (H pivot_kept 1 eq_refl eq_refl eq_refl eq_refl) as [_ Hstrict].
  apply Hstrict. by vm_compute.
Qed.

(** C8, as the code has it.  [dp_eliminate] answers on every formula once it
    is given more fuel than [measure], the number of active variables plus the
    number of variables that occur with both polarities inside one clause.
    The recursive call after a pure-literal discard and the one after unit
    propagation are made on a strict subset of the active variables.  The one
    after elimination is made on a subset of them, and on a strict subset
    unless a clause holds the pivot with both polarities; in that case the
    variables occurring with both polarities inside a clause become a strict
    subset.  In every case [measure] decreases. *)
Theorem dp_eliminate_total (F : cnf) :
  (∃ b, dp_eliminate (S (measure F)) F = Some b) ∧
  (∀ p, find_pure_literal F = Some p →
     vars (filter (λ c, p ∉ c) F) ⊂ vars F ∧
     (measure (filter (λ c, p ∉ c) F) < measure F)%nat) ∧
  (∀ u, find_unit_clause F = Some u →
     vars (unit_propagate F u) ⊂ vars F ∧
     (measure (unit_propagate F u) < measure F)%nat) ∧
  (∀ lit0, first_literal F = Some lit0 →
     let F' := eliminate (Z.abs lit0) F in
     vars F' ⊆ vars F ∧ tvars F' ⊆ tvars F ∧
     (Z.abs lit0 ∉ tvars F → vars F' ⊂ vars F) ∧
     (Z.abs lit0 ∈ tvars F → tvars F' ⊂ tvars F) ∧
     (measure F' < measure F)%nat).
Proof.
  split; [apply dp_eliminate_enough_fuel; lia|]. split; [|split].
  - intros p Hp. destruct (pure_step_vars F p Hp) as [Hv Ht].
    split; [done|]. apply measure_lt; [apply Hv|done|by left].
  - intros u Hu. destruct (unit_step_vars F u Hu) as [Hv Ht].
    split; [done|]. apply measure_lt; [apply Hv|done|by left].
  - intros lit0 (c0 & Hc0 & Hin0)%first_literal_elem F'.
    destruct (eliminate_step_vars F lit0 c0 Hc0 Hin0) as (Hv & Ht & Hs1 & Hs2).
    split; [done|]. split; [done|]. split; [done|]. split; [done|].
    apply measure_lt; [done..|].
    destruct (decide (Z.abs lit0 ∈ tvars F)); [right|left]; auto.
Qed.

(** The run on [pivot_kept]: four calls, the answer is [True]. *)
Example dp_eliminate_pivot_kept : dp_eliminate 4 pivot_kept = Some true.
Proof. by vm_compute. Qed.

End DPTotal.

(** * Further properties of the helpers of dp.py *)
Module DPHelpers.
Import DP DPFacts.

(** The sign sets of a polarity table are non-empty and hold no sign twice. *)
Lemma sign_add_NoDup b signs : NoDup signs → NoDup (sign_add b signs).
Proof.
  intros Hnd. unfold sign_add. case_bool_decide as Hb; [done|].
  apply NoDup_app. split; [done|]. split.
  - intros x Hx ->%list_elem_of_singleton. done.
  - apply NoDup_singleton.
Qed.

Lemma sign_add_nonempty b signs : sign_add b signs ≠ [].
Proof.
  unfold sign_add. case_bool_decide as Hb.
  - intros ->. inversion Hb.
  - by destruct signs.
Qed.

Definition signs_ok (pol : list (Z * list bool)) : Prop :=
  ∀ w signs, (w, signs) ∈ pol → NoDup signs ∧ signs ≠ [].

Lemma pol_add_signs_ok v b pol : signs_ok pol → signs_ok (pol_add v b pol).
Proof.
  induction pol as [|[k s] pol IH]; simpl; intros Hok w signs Hin.
  - apply list_elem_of_singleton in Hin as [= -> ->].
    split; [apply sign_add_NoDup; constructor|apply sign_add_nonempty].
  - destruct (Z.eqb_spec k v) as [->|Hne].
    + apply elem_of_cons in Hin as [[= -> ->]|Hin].
      * split; [|apply sign_add_nonempty]. apply sign_add_NoDup.
        apply (Hok v s). left.
      * apply (Hok w signs). by right.
    + apply elem_of_cons in Hin as [[= -> ->]|Hin].
      * apply (Hok k s). left.
      * apply (IH (λ w' s' H', Hok w' s' (list_elem_of_further _ _ _ H')) w signs Hin).
Qed.

Lemma pol_of_signs_ok lits : signs_ok (pol_of lits).
Proof.
  unfold pol_of.
  assert (H : ∀ pol, signs_ok pol → signs_ok
    (fold_left (λ pol lit, pol_add (Z.abs lit) (Z.ltb 0 lit) pol) lits pol)).
  { induction lits as [|l lits IH]; simpl; intros pol Hok; [done|].
    apply IH. by apply pol_add_signs_ok. }
  apply H. intros w signs Hin. inversion Hin.
Qed.

Lemma first_single_none pol :
  first_single pol = None → ∀ w signs, (w, signs) ∈ pol → length signs ≠ 1%nat.
Proof.
  induction pol as [|[k s] pol IH]; simpl; intros Hnone w signs Hin; [inversion Hin|].
  destruct (Nat.eqb_spec (length s) 1) as [|Hlen]; [done|].
  apply elem_of_cons in Hin as [[= -> ->]|Hin]; [done|]. by apply (IH Hnone w).
Qed.

Lemma both_signs (signs : list bool) :
  NoDup signs → signs ≠ [] → length signs ≠ 1%nat → true ∈ signs ∧ false ∈ signs.
Proof.
  intros Hnd Hne Hlen. destruct signs as [|a [|b r]]; [done|done|].
  apply NoDup_cons in Hnd as [Hab _]. rewrite !elem_of_cons in *.
  destruct a, b; tauto.
Qed.

(** When a scan finds no pure literal, every scanned literal has a scanned
    literal of the same variable and of the other polarity. *)
Lemma first_single_none_mixed lits l :
  first_single (pol_of lits) = None → l ∈ lits →
  ∃ l', l' ∈ lits ∧ Z.abs l' = Z.abs l ∧ Z.ltb 0 l' = negb (Z.ltb 0 l).
Proof.
  intros Hnone Hl. destruct (pol_of_inv lits) as (_ & Hsg & Hkeys).
  apply Hkeys, list_elem_of_fmap in Hl as ([w signs] & Hw & Hin). simpl in Hw. subst w.
  destruct (pol_of_signs_ok lits _ _ Hin) as [Hnd Hne].
  pose proof (first_single_none _ Hnone _ _ Hin) as Hlen.
  destruct (both_signs signs Hnd Hne Hlen) as [Ht Hf].
  assert (Hb : negb (Z.ltb 0 l) ∈ signs) by (destruct (Z.ltb 0 l); done).
  apply (Hsg _ _ _ Hin) in Hb as (l' & ? & ? & ?). eauto.
Qed.

(** X1.  [find_pure_literal]: an answer is a literal that occurs in the
    formula and whose variable occurs with that polarity only; [None] is
    answered only when every variable that occurs does so with both
    polarities. *)
Theorem find_pure_literal_complete (F : cnf) :
  (∀ p, find_pure_literal F = Some p →
     (∃ c, c ∈ F ∧ p ∈ c) ∧
     (∀ c l, c ∈ F → l ∈ c → Z.abs l = Z.abs p → l = p)) ∧
  (find_pure_literal F = None →
     ∀ c l, c ∈ F → l ∈ c →
       ∃ c' l', c' ∈ F ∧ l' ∈ c' ∧ Z.abs l' = Z.abs l ∧
                Z.ltb 0 l' = negb (Z.ltb 0 l)).
Proof.
  split; [intros p; apply find_pure_literal_spec|].
  unfold find_pure_literal. rewrite pol_table_flat. intros Hnone c l Hc Hl.
  destruct (first_single_none_mixed (concat F) l Hnone) as (l' & Hl' & ? & ?).
  { apply elem_of_concat. eauto. }
  apply elem_of_concat in Hl' as (c' & ? & ?). exists c', l'. done.
Qed.

(** X2.  [find_unit_clause] answers [None] exactly when no clause has length
    one; an answer is the literal of a clause of length one, and no clause
    before that one has length one. *)
Theorem find_unit_clause_complete (F : cnf) :
  (find_unit_clause F = None ↔ ∀ c, c ∈ F → length c ≠ 1%nat) ∧
  (∀ u, find_unit_clause F = Some u →
     ∃ F1 F2, F = F1 ++ [u] :: F2 ∧ ∀ c, c ∈ F1 → length c ≠ 1%nat).
Proof.
  induction F as [|c F [IHn IHs]]; simpl.
  - split; [|done]. split; [|done]. intros _ c Hc. inversion Hc.
  - destruct c as [|x [|y c]].
    + split.
      * rewrite IHn. split.
        -- intros H c [->|?]%elem_of_cons; [done|auto].
        -- intros H c Hc. apply H. by right.
      * intros u (F1 & F2 & -> & H1)%IHs. exists ([] :: F1), F2. split; [done|].
        intros c [->|?]%elem_of_cons; [done|auto].
    + split.
      * split; [done|]. intros H. exfalso. apply (H [x]); [left|done].
      * intros u [= ->]. exists [], F. split; [done|]. intros c Hc. inversion Hc.
    + split.
      * rewrite IHn. split.
        -- intros H c' [->|?]%elem_of_cons; [done|auto].
        -- intros H c' Hc. apply H. by right.
      * intros u (F1 & F2 & -> & H1)%IHs. exists ((x :: y :: c) :: F1), F2.
        split; [done|]. intros c' [->|?]%elem_of_cons; [done|auto].
Qed.

End DPHelpers.


(** * The three rules of the DP engine keep satisfiability *)
Module DPRules.
Import DP DPFacts DPTermination DPCorrect.

Ltac wf_tac := unfold wf; apply (bool_decide_unpack _); vm_compute; exact I.

(** X3.  On a formula without the literal [0] that holds the unit clause
    [[u]], [unit_propagate] gives a formula that is satisfiable exactly when
    the input is. *)
Theorem unit_propagate_equisat (F : cnf) (u : Z) :
  wf F → [u] ∈ F → (satisfiable (unit_propagate F u) ↔ satisfiable F).
Proof. apply unit_propagate_sat. Qed.

Lemma unit_propagate_equisat_witness :
  wf [[1]; [-1; 2]] ∧ [1] ∈ [[1]; [-1; 2]] ∧
  (satisfiable (unit_propagate [[1]; [-1; 2]] 1) ↔ satisfiable [[1]; [-1; 2]]).
Proof.
  assert (Hwf : wf [[1]; [-1; 2]]) by wf_tac.
  assert (Hin : [1] ∈ [[1]; [-1; 2]]) by left.
  split; [exact Hwf|]. split; [exact Hin|].
  exact (unit_propagate_equisat _ _ Hwf Hin).
Defined.

(** X4.  Discarding the clauses that hold the literal answered by
    [find_pure_literal], as [dp_eliminate] does, keeps satisfiability. *)
Theorem pure_discard_equisat (F : cnf) (p : Z) :
  wf F → find_pure_literal F = Some p →
  (satisfiable (filter (λ c, p ∉ c) F) ↔ satisfiable F).
Proof. apply pure_step_sat. Qed.

Lemma pure_discard_equisat_witness :
  wf [[1; 2]; [-2]] ∧ find_pure_literal [[1; 2]; [-2]] = Some 1 ∧
  (satisfiable (filter (λ c, 1 ∉ c) [[1; 2]; [-2]]) ↔ satisfiable [[1; 2]; [-2]]).
Proof.
  assert (Hwf : wf [[1; 2]; [-2]]) by wf_tac.
  split; [exact Hwf|]. split; [reflexivity|].
  exact (pure_discard_equisat _ 1 Hwf eq_refl).
Defined.

(** X5.  The elimination step: for a non-zero pivot, the clauses without
    the pivot together with the non-tautological resolvents on it are
    satisfiable exactly when the input is, also when clauses of the input hold
    the pivot with both polarities. *)
Theorem eliminate_equisat (F : cnf) (var : Z) :
  wf F → var ≠ 0 → (satisfiable (eliminate var F) ↔ satisfiable F).
Proof.
  intros Hwf Hvar. split; [by apply eliminate_sat_2|by apply eliminate_sat_1].
Qed.

Lemma eliminate_equisat_witness :
  wf [[1; -1; 2]; [-1; 3]; [-2; -3]] ∧ 1 ≠ 0 ∧
  (satisfiable (eliminate 1 [[1; -1; 2]; [-1; 3]; [-2; -3]]) ↔
   satisfiable [[1; -1; 2]; [-1; 3]; [-2; -3]]).
Proof.
  assert (Hwf : wf [[1; -1; 2]; [-1; 3]; [-2; -3]]) by wf_tac.
  assert (Hne : 1 ≠ 0) by discriminate.
  split; [exact Hwf|]. split; [exact Hne|].
  exact (eliminate_equisat _ 1 Hwf Hne).
Defined.

(** X6.  On every formula without the literal [0], [dp_eliminate] returns
    (with fuel above [measure]) and its verdict is [True] exactly when the
    formula is satisfiable; any other amount of fuel that yields a verdict
    yields the same one. *)
Theorem dp_eliminate_decides (F : cnf) :
  wf F →
  ∃ b, dp_eliminate (S (measure F)) F = Some b ∧
       (b = true ↔ satisfiable F) ∧
       ∀ n b', dp_eliminate n F = Some b' → b' = b.
Proof.
  intros Hwf. destruct (dp_eliminate_enough_fuel (S (measure F)) F) as [b Hb]; [lia|].
  exists b. split; [done|]. split; [by apply (dp_eliminate_correct (S (measure F)) F)|].
  intros n b' Hn.
  pose proof (dp_eliminate_correct _ F b Hwf Hb) as H1.
  pose proof (dp_eliminate_correct _ F b' Hwf Hn) as H2.
  destruct b, b'; try done.
  - apply H2, H1. done.
  - symmetry. apply H1, H2. done.
Qed.

Lemma dp_eliminate_decides_witness :
  wf [[1; 2]; [1; -2]; [-1; 2]; [-1; -2]] ∧
  ∃ b, dp_eliminate (S (measure [[1; 2]; [1; -2]; [-1; 2]; [-1; -2]]))
         [[1; 2]; [1; -2]; [-1; 2]; [-1; -2]] = Some b ∧
       (b = true ↔ satisfiable [[1; 2]; [1; -2]; [-1; 2]; [-1; -2]]) ∧
       ∀ n b', dp_eliminate n [[1; 2]; [1; -2]; [-1; 2]; [-1; -2]] = Some b' → b' = b.
Proof.
  assert (Hwf : wf [[1; 2]; [1; -2]; [-1; 2]; [-1; -2]]) by wf_tac.
  split; [exact Hwf|]. exact (dp_eliminate_decides _ Hwf).
Defined.

End DPRules.

(** * Properties of the DPLL engine and of its helpers *)
Module DPLLRules.
Import DPLL DPLLFacts DPLLCorrect.

(** X7.  A model returned by [dpll_rec] extends the model it was called
    with, satisfies every clause of the formula it was called on, and assigns
    no variable both polarities when the initial model does not. *)
Theorem dpll_rec_model (n : nat) (F : cnf) (m m' : gset Z) :
  consistent m → dpll_rec n F m = Some (Some m') →
  consistent m' ∧ m ⊆ m' ∧ models m' F.
Proof. apply dpll_rec_sound. Qed.

Lemma dpll_rec_model_witness :
  consistent ∅ ∧
  dpll_rec 3 [[1; 2]; [-1; -2]] ∅ = Some (Some ({[1]} ∪ {[-2]})) ∧
  models ({[1]} ∪ {[-2]}) [[1; 2]; [-1; -2]].
Proof.
  assert (Hrun : dpll_rec 3 [[1; 2]; [-1; -2]] ∅ = Some (Some ({[1]} ∪ {[-2]})))
    by (vm_compute; reflexivity).
  split; [exact consistent_empty|]. split; [exact Hrun|].
  exact (proj2 (proj2 (dpll_rec_model 3 _ ∅ _ consistent_empty Hrun))).
Defined.

(** X8.  On every formula without the literal [0], [dpll_rec] called with the
    empty model returns (with fuel above the number of literal occurrences),
    and it returns a model exactly when the formula is satisfiable; any other
    amount of fuel that yields an answer yields the same one. *)
Theorem dpll_rec_decides (F : cnf) :
  wf F →
  ∃ r, dpll_rec (S (occurrences F)) F ∅ = Some r ∧
       (is_Some r ↔ satisfiable F) ∧
       ∀ n r', dpll_rec n F ∅ = Some r' → r' = r.
Proof.
  intros Hwf. destruct (dpll_rec_enough_fuel (S (occurrences F)) F ∅) as [r Hr]; [lia|].
  exists r. split; [done|]. split; [by apply (dpll_rec_correct (S (occurrences F)))|].
  intros n r' Hn.
  pose proof (dpll_rec_fuel_mono _ (n `max` S (occurrences F)) _ _ _ Hn ltac:(lia)) as H1.
  pose proof (dpll_rec_fuel_mono _ (n `max` S (occurrences F)) _ _ _ Hr ltac:(lia)) as H2.
  congruence.
Qed.

Lemma dpll_rec_decides_witness :
  wf [[1; 2]; [1; -2]; [-1; 2]; [-1; -2]] ∧
  ∃ r, dpll_rec (S (occurrences [[1; 2]; [1; -2]; [-1; 2]; [-1; -2]]))
         [[1; 2]; [1; -2]; [-1; 2]; [-1; -2]] ∅ = Some r ∧
       (is_Some r ↔ satisfiable [[1; 2]; [1; -2]; [-1; 2]; [-1; -2]]) ∧
       ∀ n r', dpll_rec n [[1; 2]; [1; -2]; [-1; 2]; [-1; -2]] ∅ = Some r' → r' = r.
Proof.
  assert (Hwf : wf [[1; 2]; [1; -2]; [-1; 2]; [-1; -2]]) by DPRules.wf_tac.
  split; [exact Hwf|]. exact (dpll_rec_decides _ Hwf).
Defined.

(** X9.  [simplify] removes the variable: no clause of its result holds
    [var] or [-var], each is a clause of the input without the falsified
    literal (the input clause did not hold the satisfied one), and the result
    has no more clauses than the input. *)
Theorem simplify_removes_variable (F : cnf) (var : Z) (value : bool) :
  (∀ c', c' ∈ simplify F var value →
     var ∉ c' ∧ - var ∉ c' ∧
     ∃ c, c ∈ F ∧ (if value then var else - var) ∉ c ∧
          c' = filter (λ lit, lit ≠ (if value then - var else var)) c) ∧
  (length (simplify F var value) ≤ length F)%nat.
Proof.
  split.
  - rewrite simplify_assign. intros c' (c & Hc & Hout & ->)%elem_of_assign.
    split; [|split].
    + intros [Hne Hin]%list_elem_of_filter. destruct value; [done|].
      apply Hne. lia.
    + intros [Hne Hin]%list_elem_of_filter. destruct value; [done|]. done.
    + exists c. split; [done|]. split; [done|]. destruct value; [done|].
      by rewrite Z.opp_involutive.
  - induction F as [|c F IH]; simpl; [done|].
    destruct (decide _); simpl; lia.
Qed.

(** X10.  For a model that assigns no variable both polarities and a formula
    without the literal [0], the two tests made at the entry of [dpll_rec]
    exclude each other; and on a formula that holds an empty clause
    [all_true] fails and [some_false] succeeds, so that [dpll_rec] answers
    [None] at once, whatever the model. *)
Theorem entry_tests (F : cnf) (m : gset Z) :
  (wf F → consistent m → ¬ (all_true F m = true ∧ some_false F m = true)) ∧
  ([] ∈ F →
     all_true F m = false ∧ some_false F m = true ∧
     ∀ n, dpll_rec (S n) F m = Some None).
Proof.
  split.
  - intros Hwf Hcons [Hall Hsome].
    apply some_false_spec in Hsome as (c & Hc & Hneg).
    destruct (proj1 (all_true_spec F m) Hall c Hc) as (l & Hl & Hin).
    pose proof (wf_elem F c l Hwf Hc Hl) as Hl0.
    pose proof (Hneg l Hl) as Hn.
    destruct (Z.ltb_spec 0 l).
    + by apply (Hcons l).
    + apply (Hcons (- l)); [lia|]. by rewrite Z.opp_involutive.
  - intros Hempty.
    assert (H1 : all_true F m = false).
    { destruct (all_true F m) eqn:Hall; [|done].
      destruct (proj1 (all_true_spec F m) Hall [] Hempty) as (l & Hl & _). inversion Hl. }
    assert (H2 : some_false F m = true).
    { apply some_false_spec. exists []. split; [done|]. intros l Hl. inversion Hl. }
    split; [done|]. split; [done|]. intros n. simpl. by rewrite H1, H2.
Qed.

Lemma entry_tests_witness :
  wf [[1]; [-1]] ∧ consistent {[1]} ∧
  ¬ (all_true [[1]; [-1]] {[1]} = true ∧ some_false [[1]; [-1]] {[1]} = true) ∧
  [] ∈ [[1]; []] ∧ dpll_rec 1 [[1]; []] ∅ = Some None.
Proof.
  assert (Hwf : wf [[1]; [-1]]) by DPRules.wf_tac.
  assert (Hc : consistent {[1]}).
  { intros v Hv [H1 H2]. apply elem_of_singleton in H1, H2. lia. }
  assert (He : [] ∈ [[1]; []]) by (right; left).
  split; [exact Hwf|]. split; [exact Hc|].
  split; [exact (proj1 (entry_tests _ _) Hwf Hc)|].
  split; [exact He|].
  exact (proj2 (proj2 (proj2 (entry_tests [[1]; []] ∅) He)) 0%nat).
Defined.

(** X11.  The literal chosen by the unit rule, by the pure-literal rule and
    by the branching scan is unassigned (neither it nor its negation is in the
    model) and occurs in the formula; the negation of the one chosen by the
    pure-literal rule occurs in no clause. *)
Theorem chosen_literals_unassigned (F : cnf) (m : gset Z) :
  (∀ u, unit_clause F m = Some u →
     u ∉ m ∧ - u ∉ m ∧ ∃ c, c ∈ F ∧ u ∈ c ∧ filter (λ lit, - lit ∉ m) c = [u]) ∧
  (∀ p, pure_literal F m = Some p →
     p ∉ m ∧ - p ∉ m ∧ (∃ c, c ∈ F ∧ p ∈ c) ∧
     (p ≠ 0 → ∀ c, c ∈ F → - p ∉ c)) ∧
  (∀ lit, first_unassigned F m = Some lit →
     lit ∉ m ∧ - lit ∉ m ∧ ∃ c, c ∈ F ∧ lit ∈ c).
Proof.
  split; [|split].
  - intros u (H1 & H2 & c & Hc & Hf)%unit_clause_spec.
    split; [done|]. split; [done|]. exists c. split; [done|]. split; [|done].
    assert (Hx : u ∈ filter (λ lit, - lit ∉ m) c) by (rewrite Hf; left).
    by apply list_elem_of_filter in Hx as [_ ?].
  - intros p (H1 & H2 & Hocc & Hpure)%pure_literal_spec.
    split; [done|]. split; [done|]. split; [done|].
    intros Hp c Hc Hn.
    assert (- p = p); [|lia].
    apply (Hpure c (- p) Hc Hn); [done|by rewrite Z.opp_involutive|lia].
  - intros lit. apply first_unassigned_some.
Qed.

End DPLLRules.

(** * Properties of the saturation engine *)
Module ResolutionRules.
Import Resolution ResolutionFacts ResolutionTermination WorkingSet.

(** What can be obtained from a set of clauses by forming resolvents of
    distinct clauses the way [resolve_pair] does. *)
Inductive derivable (W : clause_set) : fclause → Prop :=
| derivable_member c : c ∈ W → derivable W c
| derivable_resolvent c d r :
    derivable W c → derivable W d → c ≠ d → resolvent_of c d r → derivable W r.

(** Every pair of distinct clashing clauses has a non-empty resolvent in the
    set. *)
Definition closed (W : clause_set) : Prop :=
  ∀ c d, c ∈ W → d ∈ W → c ≠ d → clash c d →
    ∃ r, resolvent_of c d r ∧ r ∈ W ∧ r ≠ ∅.

Lemma derivable_mono W W' c :
  (∀ d, d ∈ W' → derivable W d) → derivable W' c → derivable W c.
Proof.
  intros Hsub. induction 1 as [c Hc|c d r _ IHc _ IHd Hne Hres]; [auto|].
  by apply (derivable_resolvent W c d r).
Qed.

Section Engine.
Variable lit_order : fclause → list Z.
Variable clause_order : clause_set → list fclause.
Hypothesis lit_order_spec : lit_order_ok lit_order.
Hypothesis clause_order_spec : clause_order_ok clause_order.

Lemma saturate_meaning n W b :
  saturate lit_order clause_order n W = Some b →
  if b then ∃ W', W ⊆ W' ∧ (∀ c, c ∈ W' → derivable W c) ∧ closed W'
  else ∃ c d, derivable W c ∧ derivable W d ∧ c ≠ d ∧ resolvent_of c d ∅.
Proof.
  revert W. induction n as [|n IH]; intros W; [done|]. simpl.
  destruct (round lit_order clause_order W) as [new|] eqn:Hround.
  - destruct (round_some _ _ lit_order_spec clause_order_spec W new Hround)
      as [Hnew Hall].
    destruct (decide (new ⊆ W)) as [Hsub|Hnsub].
    + intros [= <-]. exists W. split; [done|]. split; [by constructor|].
      intros c d Hc Hd Hne Hclash.
      destruct (Hall c d Hc Hd Hne Hclash) as (r & Hres & Hr).
      exists r. split; [done|]. split; [by apply Hsub|]. by destruct (Hnew r Hr).
    + intros Hrun. specialize (IH _ Hrun).
      assert (Hder : ∀ c, c ∈ W ∪ new → derivable W c).
      { intros c [Hc|Hc]%elem_of_union; [by constructor|].
        destruct (Hnew c Hc) as (_ & c1 & c2 & H1 & H2 & Hne & Hres).
        apply (derivable_resolvent W c1 c2 c); [by constructor..|done|done]. }
      destruct b.
      * destruct IH as (W' & Hsub & Hd & Hcl). exists W'.
        split; [set_solver|]. split; [|done].
        intros c Hc. apply (derivable_mono W (W ∪ new)); [done|by apply Hd].
      * destruct IH as (c & d & Hc & Hd & Hne & Hres). exists c, d.
        split; [by apply (derivable_mono W (W ∪ new))|].
        split; [by apply (derivable_mono W (W ∪ new))|done].
  - intros [= <-].
    apply (round_none _ _ lit_order_spec clause_order_spec) in Hround
      as (c & d & Hc & Hd & Hne & Hres).
    exists c, d. split; [by constructor|]. split; [by constructor|done].
Qed.

(** X12.  The saturation loop returns on every input, for every iteration
    order: some amount of fuel yields a verdict, and more fuel yields the
    same verdict. *)
Theorem resolution_terminates (F : cnf) :
  ∃ n b, ∀ k, (n ≤ k)%nat → resolution lit_order clause_order k F = Some b.
Proof.
  destruct (resolution_total _ _ lit_order_spec clause_order_spec F) as (n & b & Hn).
  exists n, b. intros k Hk. by apply (saturate_fuel_mono _ _ n).
Qed.

(** X13.  One pass over the pairs, whatever the iteration orders: it takes
    the [return False] exactly when two distinct clauses of the working set
    have an empty resolvent; otherwise every clause it collects is a
    non-empty resolvent of two distinct clauses of the working set, and it
    collects a resolvent for every two distinct clauses that clash. *)
Theorem round_meaning (W : clause_set) :
  (round lit_order clause_order W = None ↔
     ∃ c d, c ∈ W ∧ d ∈ W ∧ c ≠ d ∧ resolvent_of c d ∅) ∧
  (∀ new, round lit_order clause_order W = Some new →
     (∀ r, r ∈ new →
        r ≠ ∅ ∧ ∃ c d, c ∈ W ∧ d ∈ W ∧ c ≠ d ∧ resolvent_of c d r) ∧
     (∀ c d, c ∈ W → d ∈ W → c ≠ d → clash c d →
        ∃ r, resolvent_of c d r ∧ r ∈ new)).
Proof.
  split; [by apply round_none|]. intros new. by apply round_some.
Qed.

(** X14.  When no literal of the input has its negation in the input, the
    engine answers [True] in its first pass; the input may hold the empty
    clause, which is never looked at. *)
Theorem resolution_without_clash (F : cnf) (n : nat) :
  (∀ c d x, c ∈ F → d ∈ F → x ∈ c → - x ∉ d) →
  resolution lit_order clause_order (S n) F = Some true.
Proof.
  intros Hno. unfold resolution. simpl.
  assert (Hclash : ∀ c d, c ∈ initial F → d ∈ initial F → ¬ clash c d).
  { intros c d Hc Hd (x & Hx & Hn).
    apply elem_of_list_to_set, list_elem_of_In, in_map_iff in Hc as (c0 & <- & Hc0).
    apply elem_of_list_to_set, list_elem_of_In, in_map_iff in Hd as (d0 & <- & Hd0).
    apply list_elem_of_In in Hc0, Hd0. apply elem_of_list_to_set in Hx, Hn.
    by apply (Hno c0 d0 x). }
  destruct (round lit_order clause_order (initial F)) as [new|] eqn:Hround.
  - destruct (round_some _ _ lit_order_spec clause_order_spec _ new Hround) as [Hnew _].
    rewrite decide_True; [done|]. intros r Hr. exfalso.
    destruct (Hnew r Hr) as (_ & c & d & Hc & Hd & _ & l & Hl & Hn & _).
    apply (Hclash c d Hc Hd). by exists l.
  - exfalso.
    apply (round_none _ _ lit_order_spec clause_order_spec) in Hround
      as (c & d & Hc & Hd & _ & l & Hl & Hn & _).
    apply (Hclash c d Hc Hd). by exists l.
Qed.

(** X15.  When the input holds a unit clause [[l]] and the clause [[l, -l]],
    the engine answers [False] in its first pass: the pair resolves to the
    empty clause because both [l] and [-l] are taken out of the union.  The
    formula [[l], [l, -l]] itself is satisfiable. *)
Theorem resolution_unit_and_tautology (F : cnf) (l : Z) (n : nat) :
  l ≠ 0 → [l] ∈ F → [l; - l] ∈ F →
  resolution lit_order clause_order (S n) F = Some false ∧
  satisfiable [[l]; [l; - l]].
Proof.
  intros Hl Hunit Htaut. split.
  - unfold resolution. simpl.
    assert (Hround : round lit_order clause_order (initial F) = None); [|by rewrite Hround].
    apply (round_none _ _ lit_order_spec clause_order_spec).
    exists (list_to_set [l; - l]), (list_to_set [l]).
    split; [by apply elem_of_initial|]. split; [by apply elem_of_initial|]. split.
    + intros Heq. assert (Hin : - l ∈ (list_to_set [l] : fclause)).
      { rewrite <- Heq. set_solver. }
      apply elem_of_list_to_set, list_elem_of_singleton in Hin. lia.
    + exists (- l). rewrite Z.opp_involutive.
      split; [set_solver|]. split; [set_solver|]. set_solver.
  - exists (force (λ _, true) l). intros c Hc. exists l. split.
    + apply elem_of_cons in Hc as [->|Hc]; [left|].
      apply list_elem_of_singleton in Hc as ->. left.
    + by apply force_true.
Qed.

(** X16.  What a verdict of the loop means, whatever the iteration orders.
    [False]: the empty clause is a resolvent of two distinct clauses obtained
    from the input by resolution steps of the engine.  [True]: the working set
    has grown into a set of clauses obtained from the input that holds a
    non-empty resolvent for every two distinct clauses that clash. *)
Theorem resolution_verdict_meaning (F : cnf) (n : nat) (b : bool) :
  resolution lit_order clause_order n F = Some b →
  if b then
    ∃ W', initial F ⊆ W' ∧ (∀ c, c ∈ W' → derivable (initial F) c) ∧ closed W'
  else
    ∃ c d, derivable (initial F) c ∧ derivable (initial F) d ∧ c ≠ d ∧
           resolvent_of c d ∅.
Proof. apply saturate_meaning. Qed.

End Engine.

Lemma resolution_terminates_witness :
  lit_order_ok elements ∧ clause_order_ok elements ∧
  ∃ n b, ∀ k, (n ≤ k)%nat →
    resolution elements elements k [[1; 2]; [-1; -2]] = Some b.
Proof.
  split; [exact elements_lit_order_ok|]. split; [exact elements_clause_order_ok|].
  exact (resolution_terminates elements elements
           elements_lit_order_ok elements_clause_order_ok _).
Defined.

Lemma round_meaning_witness :
  lit_order_ok elements ∧ clause_order_ok elements ∧
  (round elements elements {[ {[1]}; {[-1]} ]} = None ↔
     ∃ c d : fclause, c ∈ ({[ {[1]}; {[-1]} ]} : clause_set) ∧
       d ∈ ({[ {[1]}; {[-1]} ]} : clause_set) ∧ c ≠ d ∧ resolvent_of c d ∅).
Proof.
  split; [exact elements_lit_order_ok|]. split; [exact elements_clause_order_ok|].
  exact (proj1 (round_meaning elements elements
           elements_lit_order_ok elements_clause_order_ok _)).
Defined.

Lemma resolution_without_clash_witness :
  lit_order_ok elements ∧ clause_order_ok elements ∧
  (∀ c d x, c ∈ [[]; [1]] → d ∈ [[]; [1]] → x ∈ c → - x ∉ d) ∧
  resolution elements elements 1 [[]; [1]] = Some true.
Proof.
  assert (H : ∀ c d x, c ∈ [[]; [1]] → d ∈ [[]; [1]] → x ∈ c → - x ∉ d).
  { intros c d x Hc Hd Hx Hn.
    assert (Hc1 : ∀ e y, e ∈ [[]; [1]] → y ∈ e → y = 1).
    { intros e y He Hy. apply elem_of_cons in He as [->|He]; [inversion Hy|].
      apply list_elem_of_singleton in He as ->.
      by apply list_elem_of_singleton in Hy. }
    pose proof (Hc1 c x Hc Hx). pose proof (Hc1 d (- x) Hd Hn). lia. }
  split; [exact elements_lit_order_ok|]. split; [exact elements_clause_order_ok|].
  split; [exact H|].
  exact (resolution_without_clash elements elements
           elements_lit_order_ok elements_clause_order_ok _ 0%nat H).
Defined.

Lemma resolution_unit_and_tautology_witness :
  lit_order_ok elements ∧ clause_order_ok elements ∧ 1 ≠ 0 ∧
  [1] ∈ [[1]; [1; -1]] ∧ [1; - 1] ∈ [[1]; [1; -1]] ∧
  resolution elements elements 1 [[1]; [1; -1]] = Some false.
Proof.
  assert (H0 : 1 ≠ 0) by discriminate.
  assert (H1 : [1] ∈ [[1]; [1; -1]]) by left.
  assert (H2 : [1; - 1] ∈ [[1]; [1; -1]]) by (right; left).
  split; [exact elements_lit_order_ok|]. split; [exact elements_clause_order_ok|].
  split; [exact H0|]. split; [exact H1|]. split; [exact H2|].
  exact (proj1 (resolution_unit_and_tautology elements elements
           elements_lit_order_ok elements_clause_order_ok _ 1 0%nat H0 H1 H2)).
Defined.

Lemma resolution_verdict_meaning_witness :
  lit_order_ok elements ∧ clause_order_ok elements ∧
  resolution elements elements 3 [[1; 2]; [-1; -2]] = Some false ∧
  ∃ c d, derivable (initial [[1; 2]; [-1; -2]]) c ∧
         derivable (initial [[1; 2]; [-1; -2]]) d ∧ c ≠ d ∧ resolvent_of c d ∅.
Proof.
  assert (Hrun : resolution elements elements 3 [[1; 2]; [-1; -2]] = Some false)
    by (vm_compute; reflexivity).
  split; [exact elements_lit_order_ok|]. split; [exact elements_clause_order_ok|].
  split; [exact Hrun|].
  exact (resolution_verdict_meaning elements elements
           elements_lit_order_ok elements_clause_order_ok _ 3%nat false Hrun).
Defined.

End ResolutionRules.

(** * The parsers *)
Module Parser.

(** The text primitives of Python are parameters: [strip] is [str.strip],
    [split] is [str.split] without argument, [int] is the conversion of a
    token ([None] when it raises [ValueError]).  A file is the list of its
    lines.  [None] is the exception that leaves the parser. *)
Section Parse.
Variable strip : string → string.
Variable split : string → list string.
Variable int : string → option Z.

(** [[int(x) for x in tokens if x != '0']]. *)
Fixpoint literals (tokens : list string) : option clause :=
  match tokens with
  | [] => Some []
  | x :: tokens =>
      if String.eqb x "0" then literals tokens
      else
        match int x with
        | None => None
        | Some v =>
            match literals tokens with
            | None => None
            | Some lits => Some (v :: lits)
            end
        end
  end.

(** The body shared by the two loops: [if lits: clauses.append(lits)]. *)
Definition append_clause (lits : clause) (clauses : cnf) : cnf :=
  match lits with
  | [] => clauses
  | _ => lits :: clauses
  end.

(** [parse_dimacs_lines]. *)
Fixpoint parse_dimacs_lines (lines : list string) : option cnf :=
  match lines with
  | [] => Some []
  | line :: lines =>
      match literals (split (strip line)) with
      | None => None
      | Some lits =>
          match parse_dimacs_lines lines with
          | None => None
          | Some clauses => Some (append_clause lits clauses)
          end
      end
  end.

(** The test [not line or line[0] in ('c','%') or line.startswith('p')] on a
    stripped line. *)
Definition skipped (line : string) : bool :=
  match line with
  | EmptyString => true
  | String a _ =>
      Ascii.eqb a "c"%char || Ascii.eqb a "%"%char || Ascii.eqb a "p"%char
  end.

(** [parse_dimacs_file], on the lines of the file. *)
Fixpoint parse_dimacs_file (lines : list string) : option cnf :=
  match lines with
  | [] => Some []
  | line :: lines =>
      let line := strip line in
      if skipped line then parse_dimacs_file lines
      else
        match literals (split line) with
        | None => None
        | Some lits =>
            match parse_dimacs_file lines with
            | None => None
            | Some clauses => Some (append_clause lits clauses)
            end
        end
  end.

Lemma append_clause_elem lits clauses c :
  c ∈ append_clause lits clauses → c ≠ [] → (c = lits ∨ c ∈ clauses).
Proof.
  destruct lits as [|x lits]; simpl; [auto|].
  intros [->|?]%elem_of_cons _; auto.
Qed.

Lemma parse_dimacs_lines_shape lines F :
  parse_dimacs_lines lines = Some F →
  [] ∉ F ∧ (length F ≤ length lines)%nat.
Proof.
  revert F. induction lines as [|line lines IH]; simpl; intros F.
  - intros [= <-]. split; [inversion 1|done].
  - destruct (literals (split (strip line))) as [lits|]; [|done].
    destruct (parse_dimacs_lines lines) as [clauses|]; [|done].
    intros [= <-]. destruct (IH clauses eq_refl) as [Hne Hlen].
    destruct lits as [|x lits]; simpl.
    + split; [done|lia].
    + split; [|lia]. intros [?|?]%elem_of_cons; done.
Qed.

(** X17.  [parse_dimacs_lines] never yields an empty clause (a line without
    literals adds nothing) and yields at most one clause per line. *)
Theorem parse_dimacs_lines_no_empty_clause (lines : list string) (F : cnf) :
  parse_dimacs_lines lines = Some F →
  [] ∉ F ∧ (length F ≤ length lines)%nat.
Proof. apply parse_dimacs_lines_shape. Qed.

(** X18.  The token [0] is dropped wherever it stands, so it does not end a
    clause: the literals after it on the same line go to the same clause. *)
Theorem literals_zero_anywhere (before after : list string) :
  literals (before ++ "0"%string :: after) = literals (before ++ after).
Proof.
  induction before as [|x before IH]; simpl; [done|].
  destruct (String.eqb x "0"); [done|].
  destruct (int x); [|done]. by rewrite IH.
Qed.

(** X19.  [parse_dimacs_file] is [parse_dimacs_lines] on the lines that are
    not skipped (blank after stripping, or starting with [c], [%] or [p]);
    in particular it never yields an empty clause either. *)
Theorem parse_dimacs_file_as_lines (lines : list string) :
  parse_dimacs_file lines =
    parse_dimacs_lines (filter (λ line, skipped (strip line) = false) lines) ∧
  ∀ F, parse_dimacs_file lines = Some F → [] ∉ F.
Proof.
  assert (Heq : parse_dimacs_file lines =
    parse_dimacs_lines (filter (λ line, skipped (strip line) = false) lines)).
  { induction lines as [|line lines IH]; simpl; [done|].
    destruct (skipped (strip line)) eqn:Hs.
    - rewrite filter_cons_False by congruence. done.
    - rewrite filter_cons_True by done. simpl. by rewrite IH. }
  split; [done|]. intros F. rewrite Heq. intros H.
  by destruct (parse_dimacs_lines_shape _ _ H).
Qed.

End Parse.

Lemma parse_dimacs_lines_no_empty_clause_witness :
  parse_dimacs_lines (λ s, s) (λ s, [s]) (λ s, if String.eqb s "7" then Some 7 else None)
    ["7"; "0"]%string = Some [[7]] ∧
  [] ∉ [[7]].
Proof.
  assert (H : parse_dimacs_lines (λ s, s) (λ s, [s])
                (λ s, if String.eqb s "7" then Some 7 else None)
                ["7"; "0"]%string = Some [[7]]) by reflexivity.
  split; [exact H|].
  exact (proj1 (parse_dimacs_lines_no_empty_clause _ _ _ _ _ H)).
Defined.

End Parser.

(** * The sampling of the benchmark mode *)
Module Benchmark.

Section Sampling.
Context {A : Type}.

(** [random.sample(blk, k)] is a parameter; it is only called with
    [k < len(blk)].  [sample_per_block] is taken non-negative (a negative one
    makes [random.sample] raise). *)
Variable sample : list A → nat → list A.

(** [l[a:b]] for [0 <= a]. *)
Definition slice (l : list A) (a b : nat) : list A := take (b - a) (drop a l).

(** [blk] for the block number [i]. *)
Definition block (files : list A) (i : nat) : list A :=
  let block_size := (length files / 10)%nat in
  if (i <? 9)%nat then slice files (i * block_size) ((i + 1) * block_size)
  else drop (i * block_size) files.

(** [picks]. *)
Definition picks (sample_per_block : nat) (blk : list A) : list A :=
  if (length blk <=? sample_per_block)%nat then blk
  else sample blk sample_per_block.

(** [samples] after the loop [for i in range(10)]. *)
Definition samples (files : list A) (sample_per_block : nat) : list A :=
  flat_map (λ i, picks sample_per_block (block files i)) (seq 0 10).

Lemma block_small files i :
  (i < 9)%nat →
  block files i = take (length files / 10) (drop (i * (length files / 10)) files).
Proof.
  intros Hi. unfold block, slice.
  destruct (Nat.ltb_spec i 9) as [_|?]; [|lia]. f_equal. lia.
Qed.

Lemma take_drop_next (l : list A) a b :
  take b (drop a l) ++ drop (a + b) l = drop a l.
Proof. rewrite <- drop_drop. apply take_drop. Qed.

Lemma chunks (l : list A) bs n :
  flat_map (λ i, take bs (drop (i * bs) l)) (seq 0 n) ++ drop (n * bs) l = l.
Proof.
  induction n as [|n IH]; [done|].
  rewrite seq_S, flat_map_app, <- app_assoc. simpl. rewrite app_nil_r.
  replace (bs + n * bs)%nat with (n * bs + bs)%nat by lia.
  by rewrite take_drop_next.
Qed.

(** X20.  The ten blocks are consecutive pieces of the sorted file list:
    put one after the other they give the list back; each of the first nine
    has [len(files) // 10] files and the tenth has the rest, that is
    [len(files) // 10 + len(files) % 10] files. *)
Theorem blocks_partition (files : list A) :
  flat_map (block files) (seq 0 10) = files ∧
  (∀ i, (i < 9)%nat → length (block files i) = (length files / 10)%nat) ∧
  length (block files 9) = (length files / 10 + length files mod 10)%nat.
Proof.
  set (bs := (length files / 10)%nat).
  assert (Hdiv : length files = (10 * bs + length files mod 10)%nat)
    by (apply Nat.div_mod_eq).
  split; [|split].
  - pose proof (chunks files bs 9) as Hch.
    cbn [flat_map seq] in *. rewrite !block_small by lia. fold bs.
    assert (H9 : block files 9 = drop (9 * bs) files) by done. rewrite H9.
    rewrite <- Hch at 11. by rewrite <- !app_assoc, !app_nil_r.
  - intros i Hi. rewrite block_small by done. fold bs.
    rewrite length_take, length_drop.
    assert (i * bs ≤ 8 * bs)%nat by nia. lia.
  - assert (H9 : block files 9 = drop (9 * bs) files) by done.
    rewrite H9, length_drop. lia.
Qed.

Hypothesis sample_spec :
  ∀ blk k, (k < length blk)%nat →
    length (sample blk k) = k ∧ ∀ x, x ∈ sample blk k → x ∈ blk.

Lemma picks_spec spb blk :
  length (picks spb blk) = (length blk `min` spb)%nat ∧
  ∀ x, x ∈ picks spb blk → x ∈ blk.
Proof.
  unfold picks. destruct (Nat.leb_spec (length blk) spb) as [Hle|Hlt].
  - split; [lia|done].
  - destruct (sample_spec blk spb Hlt) as [Hlen Hin]. split; [lia|done].
Qed.

Lemma elem_of_block files i x : x ∈ block files i → x ∈ files.
Proof.
  unfold block, slice. destruct (i <? 9)%nat.
  - intros Hx%subseteq_take%subseteq_drop. done.
  - intros Hx%subseteq_drop. done.
Qed.

(** X21.  The sample: every sampled file is one of the files; at most
    [sample_per_block] files come from each block, so at most
    [10 * sample_per_block] in all; when no block is larger than
    [sample_per_block] every file is sampled, in order; and for a non-empty
    file list the sample is empty exactly when [sample_per_block] is [0]. *)
Theorem samples_spec (files : list A) (sample_per_block : nat) :
  (∀ x, x ∈ samples files sample_per_block → x ∈ files) ∧
  (length (samples files sample_per_block) ≤ 10 * sample_per_block)%nat ∧
  ((length files / 10 + length files mod 10 ≤ sample_per_block)%nat →
     samples files sample_per_block = files) ∧
  (files ≠ [] → (samples files sample_per_block = [] ↔ sample_per_block = 0%nat)).
Proof.
  destruct (blocks_partition files) as (Hcat & Hlen & Hlast).
  split; [|split; [|split]].
  - intros x Hx. unfold samples in Hx.
    apply list_elem_of_In, in_flat_map in Hx as (i & _ & Hx).
    apply list_elem_of_In, picks_spec in Hx. by apply (elem_of_block files i).
  - unfold samples. simpl. rewrite !length_app. simpl.
    pose proof (λ i, proj1 (picks_spec sample_per_block (block files i))) as Hp.
    rewrite !Hp. lia.
  - intros Hbig. rewrite <- Hcat at 2. unfold samples.
    assert (Hall : ∀ i, (i < 10)%nat →
              picks sample_per_block (block files i) = block files i).
    { intros i Hi. unfold picks.
      destruct (Nat.leb_spec (length (block files i)) sample_per_block) as [|Hlt]; [done|].
      exfalso. destruct (decide (i < 9)%nat) as [H9|H9].
      - rewrite (Hlen i H9) in Hlt. lia.
      - assert (i = 9%nat) as -> by lia. lia. }
    simpl. rewrite !Hall by lia. done.
  - intros Hne. split.
    + intros Hnil. destruct sample_per_block as [|k]; [done|]. exfalso.
      apply (f_equal length) in Hnil. unfold samples in Hnil.
      cbn [flat_map seq] in Hnil. rewrite !length_app in Hnil.
      pose proof (proj1 (picks_spec (S k) (block files 9))) as Hp.
      rewrite Hlast in Hp.
      assert (0 < length files)%nat by (destruct files; [done|simpl; lia]).
      pose proof (Nat.div_mod_eq (length files) 10).
      simpl in Hnil. lia.
    + intros ->. apply length_zero_iff_nil.
      assert (H : (length (samples files 0) ≤ 10 * 0)%nat); [|lia].
      unfold samples. simpl. rewrite !length_app. simpl.
      pose proof (λ i, proj1 (picks_spec 0 (block files i))) as Hp.
      rewrite !Hp. lia.
Qed.

End Sampling.

(** With fewer than ten files the first nine blocks are empty and the tenth
    holds every file. *)
Example blocks_of_three :
  map (block [1; 2; 3]) (seq 0 10) = [[]; []; []; []; []; []; []; []; []; [1; 2; 3]].
Proof. reflexivity. Qed.

Lemma samples_spec_witness :
  (∀ (blk : list Z) k, (k < length blk)%nat →
     length (take k blk) = k ∧ ∀ x, x ∈ take k blk → x ∈ blk) ∧
  samples (λ blk k, take k blk) [1; 2; 3] 2 = [1; 2] ∧
  (length (samples (λ blk k, take k blk) [1; 2; 3] 2) ≤ 10 * 2)%nat.
Proof.
  assert (H : ∀ (blk : list Z) k, (k < length blk)%nat →
     length (take k blk) = k ∧ ∀ x, x ∈ take k blk → x ∈ blk).
  { intros blk k Hk. split; [rewrite length_take; lia|].
    intros x Hx. by apply subseteq_take in Hx. }
  split; [exact H|]. split; [reflexivity|].
  exact (proj1 (proj2 (samples_spec (λ blk k, take k blk) H [1; 2; 3] 2))).
Defined.

End Benchmark.


(** * The two sound engines agree *)
Module Agreement.
Import DP DPLL DPCorrect DPLLCorrect.

(** X22.  On a formula without the literal [0], whenever [dp_eliminate] and
    [dpll_rec] (from the empty model) both return, the verdict of the first is
    [True] exactly when the second returns a model. *)
Theorem dp_dpll_agree (F : cnf) (n k : nat) (b : bool) (r : option (gset Z)) :
  wf F → dp_eliminate n F = Some b → dpll_rec k F ∅ = Some r →
  (b = true ↔ is_Some r).
Proof.
  intros Hwf Hdp Hdpll.
  rewrite (dp_eliminate_correct n F b Hwf Hdp).
  by rewrite (dpll_rec_correct k F r Hwf Hdpll).
Qed.

Lemma dp_dpll_agree_witness :
  wf [[1; 2]; [-1; -2]] ∧
  dp_eliminate 2 [[1; 2]; [-1; -2]] = Some true ∧
  dpll_rec 3 [[1; 2]; [-1; -2]] ∅ = Some (Some ({[1]} ∪ {[-2]})) ∧
  (true = true ↔ is_Some (Some ({[1]} ∪ {[-2]} : gset Z))).
Proof.
  assert (Hwf : wf [[1; 2]; [-1; -2]]) by DPRules.wf_tac.
  assert (Hdp : dp_eliminate 2 [[1; 2]; [-1; -2]] = Some true) by reflexivity.
  assert (Hdpll : dpll_rec 3 [[1; 2]; [-1; -2]] ∅ = Some (Some ({[1]} ∪ {[-2]})))
    by (vm_compute; reflexivity).
  split; [exact Hwf|]. split; [exact Hdp|]. split; [exact Hdpll|].
  exact (dp_dpll_agree _ 2 3 true _ Hwf Hdp Hdpll).
Defined.

(** X23.  Adding a clause never turns a refutation into an acceptance: on
    formulas without the literal [0], when [dp_eliminate] answers [False] on
    [F] it answers [False] on [F] with one more clause, and when [dpll_rec]
    finds no model for [F] it finds none for [F] with one more clause,
    wherever the clause is put. *)
Theorem refutation_monotone (F1 F2 : cnf) (C : clause) :
  wf (F1 ++ C :: F2) →
  (∀ n k b, dp_eliminate n (F1 ++ F2) = Some false →
     dp_eliminate k (F1 ++ C :: F2) = Some b → b = false) ∧
  (∀ n k r, dpll_rec n (F1 ++ F2) ∅ = Some None →
     dpll_rec k (F1 ++ C :: F2) ∅ = Some r → r = None).
Proof.
  intros Hwf.
  assert (Hwf' : wf (F1 ++ F2)).
  { unfold wf in *. rewrite Forall_app in *. rewrite Forall_cons in Hwf. tauto. }
  assert (Hsub : satisfiable (F1 ++ C :: F2) → satisfiable (F1 ++ F2)).
  { apply satisfiable_subset. intros c. rewrite !elem_of_app, elem_of_cons. tauto. }
  split.
  - intros n k b Hn Hk. destruct b; [|done]. exfalso.
    pose proof (proj1 (dp_eliminate_correct k _ true Hwf Hk) eq_refl) as Hsat.
    pose proof (proj2 (dp_eliminate_correct n _ false Hwf' Hn) (Hsub Hsat)). done.
  - intros n k r Hn Hk. destruct r as [m|]; [|done]. exfalso.
    assert (Hsat : satisfiable (F1 ++ C :: F2)).
    { apply (dpll_rec_correct k _ (Some m) Hwf Hk). eauto. }
    destruct (proj2 (dpll_rec_correct n _ None Hwf' Hn) (Hsub Hsat)) as [? ?]. done.
Qed.

Lemma refutation_monotone_witness :
  wf ([[1]] ++ [2] :: [[-1]]) ∧
  (∀ n k b, dp_eliminate n ([[1]] ++ [[-1]]) = Some false →
     dp_eliminate k ([[1]] ++ [2] :: [[-1]]) = Some b → b = false).
Proof.
  assert (Hwf : wf ([[1]] ++ [2] :: [[-1]])) by DPRules.wf_tac.
  split; [exact Hwf|]. exact (proj1 (refutation_monotone [[1]] [[-1]] [2] Hwf)).
Defined.

End Agreement.
